(** * Misc. functions (in the mathematical sense): [mvpa2/misc/fx.py]

    A shallow embedding of the module's six functions and the properties
    its specification states about them.

    Number model.  Arithmetic is exact.  The hemodynamic curves raise
    when a double overflows, so there a float carries the range of a
    double (overflow to an infinity, underflow to zero, nan) on its exact
    value; elsewhere a Python [float] is a real number of [R], and the NaN
    that [dual_gaussian] returns as a sentinel is a constructor of its own.
    [complex] follows CPython's [complexobject.c].  External routines
    (SciPy's [leastsq], NumPy's [histogram], [svd] and random generator)
    are variables of the sections that use them. *)

Set Warnings "-notation-overridden,-ambiguous-paths,-notation-incompatible-prefix".
From Stdlib Require Import Reals Lra Lia List ZArith Bool.
From Stdlib Require String.
From mathcomp Require boot order algebra.
Import ListNotations.

(** ** Python run-time model: exceptions, numbers, complex arithmetic *)

Module Py.
Local Open Scope R_scope.

Inductive exn :=
| ZeroDivisionError
| OverflowError
| ValueError
| IndexError
| UnboundLocalError
| LinAlgError.

Inductive result (A : Type) :=
| Ok (a : A)
| Raise (e : exn).
Arguments Ok {A} a.
Arguments Raise {A} e.

Definition bind {A B : Type} (m : result A) (k : A -> result B) : result B :=
  match m with
  | Ok a => k a
  | Raise e => Raise e
  end.

Notation "x <- m ;; k" := (bind m (fun x => k))
  (at level 61, m at next level, right associativity).

(** What a caller may pass where the code applies [float(...)]. *)
Inductive pyval :=
| PyInt (z : Z)
| PyFloat (r : R).

Definition float (v : pyval) : R :=
  match v with
  | PyInt z => IZR z
  | PyFloat r => r
  end.

(** *** Doubles with their range

    The curve models go through the range of a double, so there a float
    is an exact number, an infinity or nan: an operation computes the
    exact result, which overflows to an infinity beyond [fl_max] (the
    largest double) and underflows to zero at or below [fl_tiny] (half
    the least positive double).  Nothing else is rounded, and zeros
    carry no sign. *)

Definition fl_max : R := (2 ^ 53 - 1) * 2 ^ 971.
Definition fl_tiny : R := / 2 ^ 1075.

Inductive xfloat :=
| Fnum (x : R)
| Fpinf
| Fninf
| Fnan.

Definition fl (x : R) : xfloat :=
  if Rlt_dec fl_max x then Fpinf
  else if Rlt_dec x (- fl_max) then Fninf
  else if Rle_dec (Rabs x) fl_tiny then Fnum 0
  else Fnum x.

Definition fneg (a : xfloat) : xfloat :=
  match a with
  | Fnum x => Fnum (- x)
  | Fpinf => Fninf
  | Fninf => Fpinf
  | Fnan => Fnan
  end.

Definition fabs (a : xfloat) : xfloat :=
  match a with
  | Fnum x => Fnum (Rabs x)
  | Fpinf | Fninf => Fpinf
  | Fnan => Fnan
  end.

Definition fadd (a b : xfloat) : xfloat :=
  match a, b with
  | Fnan, _ | _, Fnan => Fnan
  | Fnum x, Fnum y => fl (x + y)
  | Fpinf, Fninf | Fninf, Fpinf => Fnan
  | Fpinf, _ | _, Fpinf => Fpinf
  | Fninf, _ | _, Fninf => Fninf
  end.

Definition fsub (a b : xfloat) : xfloat := fadd a (fneg b).

(** An infinity times, or over, the finite [x]. *)
Definition inf_times (positive : bool) (x : R) : xfloat :=
  if Req_dec_T x 0 then Fnan
  else if Rlt_dec 0 x then (if positive then Fpinf else Fninf)
  else (if positive then Fninf else Fpinf).

Definition fmul (a b : xfloat) : xfloat :=
  match a, b with
  | Fnan, _ | _, Fnan => Fnan
  | Fnum x, Fnum y => fl (x * y)
  | Fnum x, Fpinf | Fpinf, Fnum x => inf_times true x
  | Fnum x, Fninf | Fninf, Fnum x => inf_times false x
  | Fpinf, Fpinf | Fninf, Fninf => Fpinf
  | Fpinf, Fninf | Fninf, Fpinf => Fninf
  end.

(** IEEE division: a zero divisor gives an infinity or nan. *)
Definition fdiv (a b : xfloat) : xfloat :=
  match a, b with
  | Fnan, _ | _, Fnan => Fnan
  | Fnum x, Fnum y =>
      if Req_dec_T y 0 then
        if Req_dec_T x 0 then Fnan
        else if Rlt_dec 0 x then Fpinf else Fninf
      else fl (x / y)
  | Fnum _, Fpinf | Fnum _, Fninf => Fnum 0
  | Fpinf, Fnum y => if Rlt_dec y 0 then Fninf else Fpinf
  | Fninf, Fnum y => if Rlt_dec y 0 then Fpinf else Fninf
  | _, _ => Fnan
  end.

(** Comparisons; each is false on nan. *)
Definition f_is_zero (a : xfloat) : bool :=
  match a with
  | Fnum x => if Req_dec_T x 0 then true else false
  | _ => false
  end.

Definition f_lt0 (a : xfloat) : bool :=
  match a with
  | Fnum x => if Rlt_dec x 0 then true else false
  | Fninf => true
  | _ => false
  end.

Definition f_gt0 (a : xfloat) : bool :=
  match a with
  | Fnum x => if Rlt_dec 0 x then true else false
  | Fpinf => true
  | _ => false
  end.

Definition f_is_inf (a : xfloat) : bool :=
  match a with
  | Fpinf | Fninf => true
  | _ => false
  end.

Definition f_le (a b : xfloat) : bool :=
  match a, b with
  | Fnan, _ | _, Fnan => false
  | Fninf, _ | _, Fpinf => true
  | Fnum x, Fnum y => if Rle_dec x y then true else false
  | _, _ => false
  end.

(** The C library on doubles. *)
Definition fexp (a : xfloat) : xfloat :=
  match a with
  | Fnum x => fl (exp x)
  | Fpinf => Fpinf
  | Fninf => Fnum 0
  | Fnan => Fnan
  end.

Definition flog (a : xfloat) : xfloat :=
  match a with
  | Fnum x =>
      if Req_dec_T x 0 then Fninf
      else if Rlt_dec x 0 then Fnan else fl (ln x)
  | Fpinf => Fpinf
  | _ => Fnan
  end.

Definition fcos (a : xfloat) : xfloat :=
  match a with
  | Fnum x => fl (cos x)
  | _ => Fnan
  end.

Definition fsin (a : xfloat) : xfloat :=
  match a with
  | Fnum x => fl (sin x)
  | _ => Fnan
  end.

Definition fhypot (a b : xfloat) : xfloat :=
  match a, b with
  | Fnum x, Fnum y => fl (sqrt (x * x + y * y))
  | Fpinf, _ | Fninf, _ | _, Fpinf | _, Fninf => Fpinf
  | _, _ => Fnan
  end.

Definition atan2 (y x : R) : R :=
  if Rlt_dec 0 x then atan (y / x)
  else if Rlt_dec x 0 then
    if Rle_dec 0 y then atan (y / x) + PI else atan (y / x) - PI
  else if Rlt_dec 0 y then PI / 2
  else if Rlt_dec y 0 then - (PI / 2)
  else 0.

Definition fatan2 (a b : xfloat) : xfloat :=
  match a, b with
  | Fnan, _ | _, Fnan => Fnan
  | Fnum y, Fnum x => fl (atan2 y x)
  | Fnum _, Fpinf => Fnum 0
  | Fnum y, Fninf => if Rlt_dec y 0 then Fnum (- PI) else Fnum PI
  | Fpinf, Fnum _ => Fnum (PI / 2)
  | Fninf, Fnum _ => Fnum (- (PI / 2))
  | Fpinf, Fpinf => Fnum (PI / 4)
  | Fpinf, Fninf => Fnum (3 * PI / 4)
  | Fninf, Fpinf => Fnum (- (PI / 4))
  | Fninf, Fninf => Fnum (- (3 * PI / 4))
  end.

(** [pow(v, x)] for a base that is a modulus ([v >= 0] or infinite). *)
Definition fpow (v x : xfloat) : xfloat :=
  if f_is_zero x then Fnum 1
  else match v, x with
       | Fnum b, _ =>
           if Req_dec_T b 1 then Fnum 1
           else if Req_dec_T b 0 then
             (if f_gt0 x then Fnum 0 else if f_lt0 x then Fpinf else Fnan)
           else if Rlt_dec b 0 then Fnan
           else match x with
                | Fnum y => fl (Rpower b y)
                | Fpinf => if Rlt_dec 1 b then Fpinf else Fnum 0
                | Fninf => if Rlt_dec 1 b then Fnum 0 else Fpinf
                | Fnan => Fnan
                end
       | Fpinf, _ =>
           if f_gt0 x then Fpinf else if f_lt0 x then Fnum 0 else Fnan
       | _, _ => Fnan
       end.

(** *** Python's float and complex operators *)

(** [x / y]: "float division by zero". *)
Definition py_div (x y : xfloat) : result xfloat :=
  if f_is_zero y then Raise ZeroDivisionError else Ok (fdiv x y).

(** [x ** n] for a float [x] and a small positive int [n]: an
    overflowing power raises "Numerical result out of range", an
    underflowing one is zero. *)
Definition float_pow (x : R) (n : nat) : result xfloat :=
  if Rlt_dec fl_max (Rabs (x ^ n)) then Raise OverflowError
  else Ok (fl (x ^ n)).

Record complex := Cx { real : xfloat; imag : xfloat }.

Definition c_of (x : xfloat) : complex := Cx x (Fnum 0).
Definition c_0j : complex := Cx (Fnum 0) (Fnum 0).

Definition c_sum (a b : complex) : complex :=
  Cx (fadd (real a) (real b)) (fadd (imag a) (imag b)).

Definition c_neg (a : complex) : complex :=
  Cx (fneg (real a)) (fneg (imag a)).

Definition c_prod (a b : complex) : complex :=
  Cx (fsub (fmul (real a) (real b)) (fmul (imag a) (imag b)))
     (fadd (fmul (real a) (imag b)) (fmul (imag a) (real b))).

Definition c_is_zero (a : complex) : bool :=
  f_is_zero (real a) && f_is_zero (imag a).

(** [complex.__truediv__], CPython's [_Py_c_quot]: the quotient by the
    larger component of the divisor, "complex division by zero" on a
    zero divisor. *)
Definition c_quot (a b : complex) : result complex :=
  let abs_breal := fabs (real b) in
  let abs_bimag := fabs (imag b) in
  if f_le abs_bimag abs_breal then
    if f_is_zero abs_breal then Raise ZeroDivisionError
    else
      let ratio := fdiv (imag b) (real b) in
      let denom := fadd (real b) (fmul (imag b) ratio) in
      Ok (Cx (fdiv (fadd (real a) (fmul (imag a) ratio)) denom)
             (fdiv (fsub (imag a) (fmul (real a) ratio)) denom))
  else if f_le abs_breal abs_bimag then
    let ratio := fdiv (real b) (imag b) in
    let denom := fadd (fmul (real b) ratio) (imag b) in
    Ok (Cx (fdiv (fadd (fmul (real a) ratio) (imag a)) denom)
           (fdiv (fsub (fmul (imag a) ratio) (real a)) denom))
  else Ok (Cx Fnan Fnan).

(** NumPy's elementwise complex division: the same quotient, through
    the reciprocal of the denominator, and never an exception. *)
Definition np_quot (a b : complex) : complex :=
  let abs_r := fabs (real b) in
  let abs_i := fabs (imag b) in
  if f_le abs_i abs_r then
    if f_is_zero abs_r && f_is_zero abs_i
    then Cx (fdiv (real a) abs_r) (fdiv (imag a) abs_r)
    else
      let rat := fdiv (imag b) (real b) in
      let scl := fdiv (Fnum 1) (fadd (real b) (fmul (imag b) rat)) in
      Cx (fmul (fadd (real a) (fmul (imag a) rat)) scl)
         (fmul (fsub (imag a) (fmul (real a) rat)) scl)
  else
    let rat := fdiv (real b) (imag b) in
    let scl := fdiv (Fnum 1) (fadd (imag b) (fmul (real b) rat)) in
    Cx (fmul (fadd (fmul (real a) rat) (imag a)) scl)
       (fmul (fsub (fmul (imag a) rat) (real a)) scl).

(** [_Py_c_pow] on a non-zero base: polar form. *)
Definition c_pow_polar (a b : complex) : complex :=
  let vabs := fhypot (real a) (imag a) in
  let len := fpow vabs (real b) in
  let at_ := fatan2 (imag a) (real a) in
  let phase := fmul at_ (real b) in
  let len' := if f_is_zero (imag b) then len
              else fdiv len (fexp (fmul at_ (imag b))) in
  let phase' := if f_is_zero (imag b) then phase
                else fadd phase (fmul (imag b) (flog vabs)) in
  Cx (fmul len' (fcos phase')) (fmul len' (fsin phase')).

(** [complex.__pow__]: [a ** 0] is 1; [0 ** b] is 0 for a positive real
    [b] and "0.0 to a negative or complex power" otherwise; a result
    with an infinite component raises "complex exponentiation".
    CPython's shortcut for small integer exponents ([c_powi]) computes
    the same values. *)
Definition c_pow (a b : complex) : result complex :=
  if c_is_zero b then Ok (Cx (Fnum 1) (Fnum 0))
  else if c_is_zero a then
    if negb (f_is_zero (imag b)) || f_lt0 (real b)
    then Raise ZeroDivisionError
    else Ok c_0j
  else
    let p := c_pow_polar a b in
    if f_is_inf (real p) || f_is_inf (imag p) then Raise OverflowError
    else Ok p.

(** NumPy's elementwise power never raises: an overflowing result
    keeps its infinite part (the polar form stands for the C library's
    [cpow]: the finite values are the same, and so is an infinite real
    part on overflow). *)
Definition np_power (a b : complex) : complex :=
  if c_is_zero b then Cx (Fnum 1) (Fnum 0)
  else if c_is_zero a then
    if f_gt0 (real b) && f_is_zero (imag b) then c_0j else Cx Fnan Fnan
  else c_pow_polar a b.

(** A function argument: a scalar or a one-dimensional array. *)
Inductive nd (T : Type) :=
| Scalar (x : T)
| Array (xs : list T).
Arguments Scalar {T} x.
Arguments Array {T} xs.

Definition nd_map {T U : Type} (f : T -> U) (a : nd T) : nd U :=
  match a with
  | Scalar x => Scalar (f x)
  | Array xs => Array (map f xs)
  end.

Fixpoint zip_with {T U V : Type} (f : T -> U -> V) (xs : list T) (ys : list U)
  : list V :=
  match xs, ys with
  | x :: xs', y :: ys' => f x y :: zip_with f xs' ys'
  | _, _ => []
  end.

Fixpoint mapM {T U : Type} (f : T -> result U) (xs : list T)
  : result (list U) :=
  match xs with
  | [] => Ok []
  | x :: xs' => y <- f x ;; ys <- mapM f xs' ;; Ok (y :: ys)
  end.

(** One broadcast dimension: equal lengths, or one of them is 1. *)
Definition broadcast {T : Type} (f : T -> T -> T) (xs ys : list T)
  : result (list T) :=
  if Nat.eqb (length xs) (length ys) then Ok (zip_with f xs ys)
  else match xs, ys with
       | [x], _ => Ok (map (f x) ys)
       | _, [y] => Ok (map (fun x => f x y) xs)
       | _, _ => Raise ValueError
       end.

(** A binary operator on scalars and one-dimensional arrays. *)
Definition nd_zip {T : Type} (f : T -> T -> T) (a b : nd T)
  : result (nd T) :=
  match a, b with
  | Scalar x, Scalar y => Ok (Scalar (f x y))
  | Scalar x, Array ys => Ok (Array (map (f x) ys))
  | Array xs, Scalar y => Ok (Array (map (fun x => f x y) xs))
  | Array xs, Array ys => r <- broadcast f xs ys ;; Ok (Array r)
  end.

Definition nd_sub : nd xfloat -> nd xfloat -> result (nd xfloat) :=
  nd_zip fsub.
Definition nd_add : nd R -> nd R -> result (nd R) := nd_zip Rplus.

End Py.

(** ** The functions of [fx.py] *)

Module Fx.
Import Py.
Local Open Scope R_scope.

(** *** single_gamma_hrf, double_gamma_hrf *)

(** [0j ** ((A ** 2) / (W ** 2) * 8.0 * np.log(2.0))] *)
Definition hrf_power (A W : R) : result complex :=
  a2 <- float_pow A 2 ;;
  w2 <- float_pow W 2 ;;
  q <- py_div a2 w2 ;;
  c_pow c_0j (c_of (fmul (fmul q (Fnum 8)) (Fnum (ln 2)))).

(** [-((W + 0j ** 2) / A / 8.0 / np.log(2.0))] *)
Definition hrf_scale (A W : R) : result complex :=
  j2 <- c_pow c_0j (c_of (Fnum 2)) ;;
  d1 <- c_quot (c_sum (c_of (Fnum W)) j2) (c_of (Fnum A)) ;;
  d2 <- c_quot d1 (c_of (Fnum 8)) ;;
  d3 <- c_quot d2 (c_of (Fnum (ln 2))) ;;
  Ok (c_neg d3).

(** The value of [res] for a Python scalar [t]: every operation is
    Python's own and raises as Python does, in evaluation order. *)
Definition hrf_res_scalar (t A W K : R) : result complex :=
  q <- py_div (Fnum t) (Fnum A) ;;
  z <- hrf_power A W ;;
  s <- hrf_scale A W ;;
  e <- c_quot (c_of (fsub (Fnum t) (Fnum A))) s ;;
  p <- c_pow (c_of (Fnum (exp 1))) e ;;
  Ok (c_sum (c_of (fmul (Fnum K) q)) (c_prod z p)).

(** The value of [res] for a NumPy array [t]: the operations on [t] are
    elementwise and do not raise (they give infinities and nan), the
    scalar sub-expressions still raise. *)
Definition hrf_res_array (t : list R) (A W K : R) : result (list complex) :=
  let q := map (fun ti => fdiv (Fnum ti) (Fnum A)) t in
  z <- hrf_power A W ;;
  s <- hrf_scale A W ;;
  let e := map (fun ti => np_quot (c_of (fsub (Fnum ti) (Fnum A))) s) t in
  let p := map (np_power (c_of (Fnum (exp 1)))) e in
  Ok (zip_with (fun qi pi => c_sum (c_of (fmul (Fnum K) qi)) (c_prod z pi))
        q p).

Definition single_gamma_hrf_res (t : nd R) (A W K : pyval)
  : result (nd complex) :=
  let A := float A in
  let W := float W in
  let K := float K in
  match t with
  | Scalar x => r <- hrf_res_scalar x A W K ;; Ok (Scalar r)
  | Array xs => r <- hrf_res_array xs A W K ;; Ok (Array r)
  end.

Definition single_gamma_hrf (t : nd R) (A W K : pyval)
  : result (nd xfloat) :=
  res <- single_gamma_hrf_res t A W K ;;
  Ok (nd_map real res).

Definition double_gamma_hrf (t : nd R) (A1 W1 K1 A2 W2 K2 : pyval)
  : result (nd xfloat) :=
  let A1 := PyFloat (float A1) in
  let W1 := PyFloat (float W1) in
  let K1 := PyFloat (float K1) in
  let A2 := PyFloat (float A2) in
  let W2 := PyFloat (float W2) in
  let K2 := PyFloat (float K2) in
  a <- single_gamma_hrf t A1 W1 K1 ;;
  b <- single_gamma_hrf t A2 W2 K2 ;;
  nd_sub a b.

(** *** dual_gaussian, dual_positive_gaussian *)

(** What the Gaussian models return: the sentinel [np.nan] or numbers. *)
Inductive value :=
| NaN
| Num (v : nd R).

(** [scipy.stats.norm.pdf(x, loc, scale)] at one point, [scale > 0]. *)
Definition norm_pdf (x loc scale : R) : R :=
  exp (- ((x - loc) / scale) ^ 2 / 2) / sqrt (2 * PI) / scale.

Definition dual_gaussian (x : nd R) (amp1 mean1 std1 amp2 mean2 std2 : R)
  : result value :=
  if Rle_dec std1 0 then Ok NaN
  else if Rle_dec std2 0 then Ok NaN
  else
    let g1 := nd_map (fun xi => amp1 * norm_pdf xi mean1 std1) x in
    let g2 := nd_map (fun xi => amp2 * norm_pdf xi mean2 std2) x in
    s <- nd_add g1 g2 ;;
    Ok (Num s).

Definition dual_positive_gaussian (x : nd R)
  (amp1 mean1 std1 amp2 mean2 std2 : R) : result value :=
  if Rlt_dec amp1 0 then Ok NaN
  else if Rlt_dec amp2 0 then Ok NaN
  else dual_gaussian x amp1 mean1 std1 amp2 mean2 std2.

(** *** least_sq_fit *)

(** The arrays the fit works on: one- or two-dimensional, the latter with
    its number of columns (a shape [(0, m)] has no row to read it from). *)
Inductive ndarray :=
| Arr1 (l : list R)
| Arr2 (ncols : nat) (rows : list (list R)).

Definition ravel (a : ndarray) : list R :=
  match a with
  | Arr1 l => l
  | Arr2 _ rows => concat rows
  end.

(** [nsamp, ylen] as the code reads them off [y.shape]. *)
Definition samples (y : ndarray) : nat * nat :=
  match y with
  | Arr2 m rows => (length rows, m)
  | Arr1 l => (1%nat, length l)
  end.

Definition arange (n : nat) : list R := map INR (seq 0 n).

(** [np.array([x] * nsamp).ravel()] *)
Definition tile (x : ndarray) (nsamp : nat) : ndarray :=
  Arr1 (concat (repeat (ravel x) nsamp)).

(** The rows of an operand of a broadcast: a 1-d array is one row. *)
Definition as_rows (a : ndarray) : nat * list (list R) :=
  match a with
  | Arr1 l => (length l, [l])
  | Arr2 m rows => (m, rows)
  end.

Definition broadcast_dim (m k : nat) : result nat :=
  if Nat.eqb m k then Ok m
  else if Nat.eqb m 1 then Ok k
  else if Nat.eqb k 1 then Ok m
  else Raise ValueError.

Definition broadcast_rows (f : R -> R -> R) (r s : list (list R))
  : result (list (list R)) :=
  if Nat.eqb (length r) (length s)
  then mapM (fun p => broadcast f (fst p) (snd p)) (combine r s)
  else match r, s with
       | [x], _ => mapM (fun y => broadcast f x y) s
       | _, [y] => mapM (fun x => broadcast f x y) r
       | _, _ => Raise ValueError
       end.

(** [a - b] with NumPy's broadcasting over one and two dimensions. *)
Definition ndarray_sub (a b : ndarray) : result ndarray :=
  let '(m, r) := as_rows a in
  let '(k, s) := as_rows b in
  c <- broadcast_dim m k ;;
  rows <- broadcast_rows Rminus r s ;;
  match a, b with
  | Arr1 _, Arr1 _ => Ok (Arr1 (concat rows))
  | _, _ => Ok (Arr2 c rows)
  end.

(** [**kwargs]: keyword arguments handed on to the fitted function. *)
Definition kwargs := list (String.string * R).

(** The fitted function [fx(x, *p, **kwargs)]. *)
Definition functor := ndarray -> list R -> kwargs -> result ndarray.

(** What [scipy.optimize.leastsq] returns: the fitted parameters and an
    integer status. *)
Definition fit := (list R * Z)%type.

(** Lines 167-181: the [x] and [y] the error function closes over. *)
Definition least_sq_fit_xy (y : ndarray) (x : option ndarray)
  : ndarray * ndarray :=
  let '(nsamp, ylen) := samples y in
  let x := match x with
           | None => Arr1 (arange ylen)
           | Some x => x
           end in
  if Nat.ltb 1 nsamp then (tile x nsamp, Arr1 (ravel y)) else (x, y).

Definition efx (fx : functor) (kw : kwargs) (x y : ndarray) (p : list R)
  : result ndarray :=
  f <- fx x p kw ;;
  ndarray_sub y f.

Section LeastSquares.

Variable leastsq : (list R -> result ndarray) -> list R -> result fit.

Definition least_sq_fit (fx : functor) (params : list R) (y : ndarray)
  (x : option ndarray) (kw : kwargs) : result fit :=
  let '(x', y') := least_sq_fit_xy y x in
  leastsq (efx fx kw x' y') params.

End LeastSquares.

(** *** fit2histogram *)

(** Round half to even, [np.rint]. *)
Definition rint (x : R) : Z :=
  let f := Int_part x in
  let d := x - IZR f in
  if Rlt_dec d (1 / 2) then f
  else if Rlt_dec (1 / 2) d then (f + 1)%Z
  else if Z.even f then f else (f + 1)%Z.

(** [np.round(x, decimals)] for [decimals >= 0]: scale, [rint], scale back. *)
Definition np_round (x : R) (decimals : nat) : R :=
  IZR (rint (x * 10 ^ decimals)) / 10 ^ decimals.

Fixpoint insert_unique (x : R) (l : list R) : list R :=
  match l with
  | [] => [x]
  | y :: l' =>
      if Rlt_dec x y then x :: l
      else if Req_dec_T x y then l
      else y :: insert_unique x l'
  end.

(** [np.unique]: the sorted distinct values. *)
Definition unique (l : list R) : list R := fold_right insert_unique [] l.

(** [np.asscalar]: "can only convert an array of size 1". *)
Definition asscalar (l : list R) : result R :=
  match l with
  | [x] => Ok x
  | _ => Raise ValueError
  end.

(** [X.min()] and [X.max()] over all entries; they raise on no entry. *)
Definition np_min (l : list R) : result R :=
  match l with
  | [] => Raise ValueError
  | x :: l' => Ok (fold_left Rmin l' x)
  end.

Definition np_max (l : list R) : result R :=
  match l with
  | [] => Raise ValueError
  | x :: l' => Ok (fold_left Rmax l' x)
  end.

(** Lines 221-223: without [x_range], the global minimum and maximum. *)
Definition default_range (X : list (list R)) (x_range : option (R * R))
  : result (R * R) :=
  match x_range with
  | None =>
      lo <- np_min (concat X) ;;
      hi <- np_max (concat X) ;;
      Ok (lo, hi)
  | Some r => Ok r
  end.

(** [np.linspace(start, stop, n + 1)]: the edges of [n] bins of equal
    width over [start, stop], as the histogram routine lays them out. *)
Definition linspace (start stop : R) (n : nat) : list R :=
  map (fun i => start + INR i * ((stop - start) / INR n)) (seq 0 (S n)).

(** The outer edges [np.histogram] lays its bins between, NumPy's
    [_get_outer_edges] on the [range] given: a range of no extent is
    widened by one half at each end ("expand empty range to avoid divide
    by zero"). *)
Definition outer_edges (rng : R * R) : R * R :=
  if Req_dec_T (fst rng) (snd rng)
  then (fst rng - 1 / 2, snd rng + 1 / 2)
  else rng.

(** The rounded differences of neighbouring edges (lines 238-239). *)
Definition rounded_widths (edges : list R) : list R :=
  map (fun d => np_round d 6) (zip_with Rminus (removelast edges) (tl edges)).

(** The loop's variables: [H], and [bin_left], [bin_width], [bin_centers],
    which the first row sets together. *)
Record bins := Bins {
  bin_left : list R;
  bin_width : R;
  bin_centers : list R
}.

Record loop_state := LoopState {
  H : list (list R);
  binning : option bins
}.

Fixpoint foldM {S T : Type} (f : S -> T -> result S) (s : S) (l : list T)
  : result S :=
  match l with
  | [] => Ok s
  | x :: l' => s' <- f s x ;; foldM f s' l'
  end.

Section Histogram.

Variable leastsq : (list R -> result ndarray) -> list R -> result fit.

(** [np.histogram(obsrv, bins=nbins, range=x_range)]: counts and edges. *)
Variable histogram : list R -> Z -> R * R -> result (list R * list R).

Definition loop_body (nbins : Z) (x_range : R * R) (st : loop_state)
  (obsrv : list R) : result loop_state :=
  hi <- histogram obsrv nbins x_range ;;
  b <- match binning st with
       | None =>
           let bl := removelast (snd hi) in
           w <- asscalar (unique (rounded_widths (snd hi))) ;;
           let bw := Rabs w in
           Ok (Bins bl bw (map (fun l => l + bw / 2) bl))
       | Some b => Ok b
       end ;;
  Ok (LoopState (H st ++ [fst hi]) (Some b)).

Definition fit2histogram (X : list (list R)) (fx : functor)
  (params : list R) (nbins : Z) (x_range : option (R * R))
  : result (ndarray * list R * R * fit) :=
  x_range <- default_range X x_range ;;
  st <- foldM (loop_body nbins x_range) (LoopState [] None) X ;;
  let Harr := match H st with
              | [h] => Arr1 h
              | [] => Arr1 []
              | h :: _ => Arr2 (length h) (H st)
              end in
  match binning st with
  | None => Raise UnboundLocalError
  | Some b =>
      f <- least_sq_fit leastsq fx params Harr
             (Some (Arr1 (bin_centers b))) [] ;;
      Ok (Harr, bin_left b, bin_width b, f)
  end.

End Histogram.

End Fx.

(** ** get_random_rotation, on an ordered field *)

Module Rotation.
Import Py.
Import mathcomp.boot.boot mathcomp.order.order mathcomp.algebra.algebra.
Import GRing.Theory Num.Theory.
Local Open Scope ring_scope.

Section GetRandomRotation.

(** The field of the matrix entries: the floats, read as exact numbers. *)
Variable F : realFieldType.

(** A two-dimensional array: its shape and its entries. *)
Record ndarray2 := Nd2 {
  shape0 : nat;
  shape1 : nat;
  item : nat -> nat -> F
}.

(** The length of [a[:stop]] on an axis of length [len]. *)
Definition slice_stop (stop : int) (len : nat) : nat :=
  match stop with
  | Posz k => minn k len
  | Negz k => len - k.+1
  end.

(** [a[:stop, :]] and [a[:, :stop]] *)
Definition rows_upto (a : ndarray2) (stop : int) : ndarray2 :=
  Nd2 (slice_stop stop (shape0 a)) (shape1 a) (item a).

Definition cols_upto (a : ndarray2) (stop : int) : ndarray2 :=
  Nd2 (shape0 a) (slice_stop stop (shape1 a)) (item a).

Definition square (n : nat) (a : ndarray2) : 'M[F]_n :=
  \matrix_(i < n, j < n) item a i j.

(** [np.linalg.det]: "last 2 dimensions of the array must be square". *)
Definition det (a : ndarray2) : result F :=
  if shape0 a == shape1 a then Ok (\det (square (shape0 a) a))
  else Raise LinAlgError.

(** [R[:, 0] *= -1.0]: "index 0 is out of bounds" without a column. *)
Definition negated (a : ndarray2) : ndarray2 :=
  Nd2 (shape0 a) (shape1 a)
    (fun i j => if j == 0%N then item a i j * -1 else item a i j).

Definition negate_first_column (a : ndarray2) : result ndarray2 :=
  if shape1 a == 0%N then Raise IndexError else Ok (negated a).

(** [np.linalg.svd(a)[2]], the matrix [vh] (with [full_matrices]). *)
Variable svd_vh : ndarray2 -> ndarray2.

(** [np.random.normal(size=(r, c))]: one draw for each shape. *)
Variable random_normal : nat -> nat -> ndarray2.

Definition get_random_rotation (ns : int) (nt : option int)
  (data : option ndarray2) : result ndarray2 :=
  let nt := match nt with
            | None => ns
            | Some nt => nt
            end in
  let d := Num.max ns nt in
  data <- match data with
          | None =>
              match d with
              | Posz k => Ok (random_normal (k * 10) k)
              | Negz _ => Raise ValueError
              end
          | Some a => Ok a
          end ;;
  let _vh := svd_vh (cols_upto data d) in
  let R := cols_upto (rows_upto _vh ns) nt in
  if ns == nt then
    dt <- det R ;;
    if dt < 0 then negate_first_column R else Ok R
  else Ok R.

(** [a @ a.T] is the identity. *)
Definition rows_orthonormal (a : ndarray2) : Prop :=
  forall i k : 'I_(shape0 a),
    \sum_(j < shape1 a) item a i j * item a k j = (i == k)%:R.

End GetRandomRotation.

Arguments Nd2 {F} _ _ _.
Arguments shape0 {F} _.
Arguments shape1 {F} _.
Arguments item {F} _ _ _.
Arguments rows_upto {F} _ _.
Arguments cols_upto {F} _ _.
Arguments square {F} _ _.
Arguments det {F} _.
Arguments negated {F} _.
Arguments negate_first_column {F} _.
Arguments get_random_rotation {F} _ _ _ _ _.
Arguments rows_orthonormal {F} _.

End Rotation.

(** ** Properties of the curve models *)

Module FxProps.
Import Py Fx.
Local Open Scope R_scope.

(** A property of every number of a scalar or an array. *)
Definition nd_forall (P : R -> Prop) (a : nd R) : Prop :=
  match a with
  | Scalar x => P x
  | Array xs => Forall P xs
  end.

(** Numbers of a size within a factor [c] of 1. *)
Definition within (c x : R) : Prop := / c <= Rabs x <= c.

(** The parameters the statements below are about: away from the ends
    of the range of a double, where intermediate results neither
    overflow nor underflow. *)
Definition moderate (x : R) : Prop := within (10 ^ 70) x.

(** Zero, or moderate. *)
Definition in_range (x : R) : Prop := x = 0 \/ moderate x.

(** What [fl] keeps of a number below the overflow threshold. *)
Definition flush (x : R) : R := if Rle_dec (Rabs x) fl_tiny then 0 else x.

(** The exponent of [np.e] is [hrf_exponent t A W * ln 2], so the
    exponential factor is 2 to the power [hrf_exponent t A W]. *)
Definition hrf_exponent (t A W : R) : R := (A - t) * A * 8 / W.

(** *** The range of a double *)

Lemma ln2_pos : 0 < ln 2.
Proof. pose proof ln_lt_2. lra. Qed.

Lemma exp_1_gt_2 : 2 < exp 1.
Proof. pose proof (exp_ineq1 1). lra. Qed.

Lemma ln2_lt_1 : ln 2 < 1.
Proof.
  rewrite <- (ln_exp 1). apply ln_increasing; [lra|exact exp_1_gt_2].
Qed.

Lemma fl_tiny_pos : 0 < fl_tiny.
Proof. unfold fl_tiny. apply Rinv_0_lt_compat. apply pow_lt. lra. Qed.

Lemma fl_max_big : 10 ^ 300 <= fl_max.
Proof. unfold fl_max. lra. Qed.

Lemma fl_tiny_small : fl_tiny < / 10 ^ 300.
Proof. unfold fl_tiny. lra. Qed.

Lemma pow2_1023_le_fl_max : 2 ^ 1023 <= fl_max.
Proof. unfold fl_max. lra. Qed.

Lemma fl_max_lt_pow2_1024 : fl_max < 2 ^ 1024.
Proof. unfold fl_max. lra. Qed.

Lemma Rabs_bounds (x : R) : - Rabs x <= x <= Rabs x.
Proof.
  pose proof (Rle_abs x). pose proof (Rle_abs (- x)) as H'.
  rewrite Rabs_Ropp in H'. lra.
Qed.

Lemma fl_flush (x : R) : Rabs x <= fl_max -> fl x = Fnum (flush x).
Proof.
  intros H. pose proof (Rabs_bounds x). unfold fl, flush.
  destruct (Rlt_dec fl_max x); [lra|].
  destruct (Rlt_dec x (- fl_max)); [lra|].
  destruct (Rle_dec (Rabs x) fl_tiny); reflexivity.
Qed.

Lemma flush_0 : flush 0 = 0.
Proof. unfold flush. destruct (Rle_dec (Rabs 0) fl_tiny); reflexivity. Qed.

Lemma flush_cases (x : R) : flush x = x \/ flush x = 0.
Proof. unfold flush. destruct (Rle_dec (Rabs x) fl_tiny); auto. Qed.

Lemma flush_le (x : R) : Rabs (flush x) <= Rabs x.
Proof.
  destruct (flush_cases x) as [-> | ->]; [lra|].
  rewrite Rabs_R0. apply Rabs_pos.
Qed.

Lemma flush_idem (x : R) : flush (flush x) = flush x.
Proof.
  unfold flush. destruct (Rle_dec (Rabs x) fl_tiny) as [L|N] eqn:E.
  - destruct (Rle_dec (Rabs 0) fl_tiny); reflexivity.
  - now rewrite E.
Qed.

Lemma fl_flushed (x : R) :
  Rabs x <= fl_max -> fl (flush x) = Fnum (flush x).
Proof.
  intros H. rewrite fl_flush, flush_idem; [reflexivity|].
  pose proof (flush_le x). lra.
Qed.

Lemma fl_0 : fl 0 = Fnum 0.
Proof.
  rewrite fl_flush, flush_0; [reflexivity|].
  rewrite Rabs_R0. pose proof fl_max_big. lra.
Qed.

Lemma flush_within (x : R) : within (10 ^ 300) x -> flush x = x.
Proof.
  intros [L U]. unfold flush.
  destruct (Rle_dec (Rabs x) fl_tiny) as [S|_]; [|reflexivity].
  pose proof fl_tiny_small. lra.
Qed.

Lemma fl_within (x : R) : within (10 ^ 300) x -> fl x = Fnum x.
Proof.
  intros H. rewrite fl_flush, (flush_within x H); [reflexivity|].
  destruct H as [_ U]. pose proof fl_max_big. lra.
Qed.

(** *** Sizes of products and quotients *)

Lemma within_mult (a b x y : R) :
  0 < a -> 0 < b -> within a x -> within b y -> within (a * b) (x * y).
Proof.
  intros Ha Hb [Lx Ux] [Ly Uy]. unfold within.
  rewrite Rabs_mult, Rinv_mult.
  pose proof (Rinv_0_lt_compat a Ha). pose proof (Rinv_0_lt_compat b Hb).
  split; apply Rmult_le_compat; lra || apply Rabs_pos.
Qed.

Lemma within_inv (a x : R) : 0 < a -> within a x -> within a (/ x).
Proof.
  intros Ha [L U]. unfold within. rewrite Rabs_inv.
  pose proof (Rinv_0_lt_compat a Ha) as Hi. split.
  - apply Rinv_le_contravar; lra.
  - rewrite <- (Rinv_inv a). apply Rinv_le_contravar; lra.
Qed.

Lemma within_div (a b x y : R) :
  0 < a -> 0 < b -> within a x -> within b y -> within (a * b) (x / y).
Proof.
  intros Ha Hb Hx Hy. apply within_mult; auto. now apply within_inv.
Qed.

Lemma within_opp (a x : R) : within a x -> within a (- x).
Proof. unfold within. now rewrite Rabs_Ropp. Qed.

Lemma within_le (a b x : R) : 0 < a -> a <= b -> within a x -> within b x.
Proof.
  intros Ha Hab [L U]. unfold within.
  pose proof (Rinv_le_contravar a b Ha Hab). lra.
Qed.

Lemma within_nonzero (a x : R) : 0 < a -> within a x -> x <> 0.
Proof.
  intros Ha [L _] ->. rewrite Rabs_R0 in L.
  pose proof (Rinv_0_lt_compat a Ha). lra.
Qed.

Lemma within_pos (a x : R) : 0 < a -> / a <= x <= a -> within a x.
Proof.
  intros Ha [L U]. unfold within.
  pose proof (Rinv_0_lt_compat a Ha). rewrite Rabs_pos_eq; lra.
Qed.

Lemma within_8 : within 8 8.
Proof. apply within_pos; lra. Qed.

Lemma within_ln2 : within 2 (ln 2).
Proof.
  apply within_pos; [lra|].
  pose proof ln_lt_2. pose proof ln2_lt_1. lra.
Qed.

Lemma within_exp1 : within 3 (exp 1).
Proof.
  apply within_pos; [lra|]. pose proof exp_1_gt_2. pose proof exp_le_3. lra.
Qed.

Lemma Rabs_mult_le (a b x y : R) :
  Rabs x <= a -> Rabs y <= b -> Rabs (x * y) <= a * b.
Proof.
  intros Hx Hy. rewrite Rabs_mult.
  apply Rmult_le_compat; auto using Rabs_pos.
Qed.

Lemma Rabs_plus_le (a b x y : R) :
  Rabs x <= a -> Rabs y <= b -> Rabs (x + y) <= a + b.
Proof. intros Hx Hy. pose proof (Rabs_triang x y). lra. Qed.

(** A number that is [within c] for some [c] up to [10 ^ 300] is kept. *)
Lemma fl_keeps (c x : R) :
  0 < c -> c <= 10 ^ 300 -> within c x -> fl x = Fnum x.
Proof. intros Hc Hle H. apply fl_within. now apply (within_le c). Qed.

(** *** The operators on finite numbers *)

Lemma f_is_zero_0 : f_is_zero (Fnum 0) = true.
Proof.
  simpl. destruct (Req_dec_T 0 0) as [_|N]; [reflexivity|now destruct N].
Qed.

Lemma f_is_zero_num (x : R) : x <> 0 -> f_is_zero (Fnum x) = false.
Proof.
  intros H. simpl. destruct (Req_dec_T x 0); [contradiction|reflexivity].
Qed.

Lemma fdiv_num (x y : R) : y <> 0 -> fdiv (Fnum x) (Fnum y) = fl (x / y).
Proof.
  intros H. simpl. destruct (Req_dec_T y 0); [contradiction|reflexivity].
Qed.

Lemma fdiv_0_num (y : R) : y <> 0 -> fdiv (Fnum 0) (Fnum y) = Fnum 0.
Proof.
  intros H. rewrite fdiv_num by exact H.
  replace (0 / y) with 0 by (unfold Rdiv; ring). exact fl_0.
Qed.

Lemma fmul_0_l (x : R) : fmul (Fnum 0) (Fnum x) = Fnum 0.
Proof. simpl. rewrite Rmult_0_l. exact fl_0. Qed.

Lemma fmul_0_r (x : R) : fmul (Fnum x) (Fnum 0) = Fnum 0.
Proof. simpl. rewrite Rmult_0_r. exact fl_0. Qed.

Lemma fadd_0_r (x : R) : fadd (Fnum x) (Fnum 0) = fl x.
Proof. simpl. now rewrite Rplus_0_r. Qed.

Lemma fadd_0_0 : fadd (Fnum 0) (Fnum 0) = Fnum 0.
Proof. rewrite fadd_0_r. exact fl_0. Qed.

Lemma fsub_0_0 : fsub (Fnum 0) (Fnum 0) = Fnum 0.
Proof. unfold fsub. simpl. rewrite Ropp_0, Rplus_0_r. exact fl_0. Qed.

Lemma py_div_num (x y : R) :
  y <> 0 -> py_div (Fnum x) (Fnum y) = Ok (fl (x / y)).
Proof.
  intros H. unfold py_div. rewrite f_is_zero_num, fdiv_num by exact H.
  reflexivity.
Qed.

Lemma py_div_zero (x : xfloat) : py_div x (Fnum 0) = Raise ZeroDivisionError.
Proof. unfold py_div. now rewrite f_is_zero_0. Qed.

Lemma float_pow_keeps (c x : R) (n : nat) :
  0 < c -> c <= 10 ^ 300 -> within c (x ^ n) ->
  float_pow x n = Ok (Fnum (x ^ n)).
Proof.
  intros Hc Hle H. unfold float_pow.
  rewrite (fl_keeps c) by assumption.
  destruct (Rlt_dec fl_max (Rabs (x ^ n))) as [L|_]; [|reflexivity].
  destruct H as [_ U]. pose proof fl_max_big. lra.
Qed.

(** *** Complex operations on the real axis *)

Lemma c_is_zero_0j : c_is_zero c_0j = true.
Proof. unfold c_is_zero, c_0j. cbn [real imag]. now rewrite f_is_zero_0. Qed.

Lemma c_is_zero_num (x : R) (b : xfloat) :
  x <> 0 -> c_is_zero (Cx (Fnum x) b) = false.
Proof.
  intros H. unfold c_is_zero. cbn [real imag].
  now rewrite f_is_zero_num.
Qed.

(** [0j ** x] is [0j] for a positive real [x]. *)
Lemma c_pow_0j_pos (x : R) : 0 < x -> c_pow c_0j (c_of (Fnum x)) = Ok c_0j.
Proof.
  intros Hx. unfold c_pow, c_of.
  rewrite c_is_zero_num by lra. rewrite c_is_zero_0j.
  cbn [real imag]. rewrite f_is_zero_0. simpl.
  destruct (Rlt_dec x 0) as [L|_]; [lra|reflexivity].
Qed.

(** [0j ** 0.0] is 1. *)
Lemma c_pow_0j_0 : c_pow c_0j (c_of (Fnum 0)) = Ok (Cx (Fnum 1) (Fnum 0)).
Proof.
  change (c_of (Fnum 0)) with c_0j. unfold c_pow.
  now rewrite c_is_zero_0j.
Qed.

(** [0j * z] is [0j] for a finite [z]. *)
Lemma c_prod_0j (x y : R) : c_prod c_0j (Cx (Fnum x) (Fnum y)) = c_0j.
Proof.
  unfold c_prod, c_0j. cbn [real imag].
  rewrite !fmul_0_l, fsub_0_0, fadd_0_0. reflexivity.
Qed.

(** Python's division by a number on the real axis. *)
Lemma c_quot_real (x b : R) :
  b <> 0 -> fl x = Fnum x -> fl b = Fnum b ->
  c_quot (c_of (Fnum x)) (c_of (Fnum b)) = Ok (c_of (fl (x / b))).
Proof.
  intros Hb Hx Hfb. unfold c_quot, c_of. cbn [real imag fabs f_le].
  destruct (Rle_dec (Rabs 0) (Rabs b)) as [_|N].
  2:{ exfalso. apply N. rewrite Rabs_R0. apply Rabs_pos. }
  rewrite f_is_zero_num by now apply Rabs_no_R0.
  rewrite fdiv_0_num by exact Hb.
  rewrite !fmul_0_r, !fadd_0_r, fsub_0_0, Hx, Hfb.
  rewrite fdiv_num, fdiv_0_num by exact Hb. reflexivity.
Qed.

(** A zero divisor raises. *)
Lemma c_quot_zero (a : complex) :
  c_quot a (c_of (Fnum 0)) = Raise ZeroDivisionError.
Proof.
  unfold c_quot, c_of. cbn [real imag fabs f_le].
  destruct (Rle_dec (Rabs 0) (Rabs 0)) as [_|N]; [|exfalso; apply N; lra].
  rewrite Rabs_R0, f_is_zero_0. reflexivity.
Qed.

(** NumPy's division by a number on the real axis. *)
Lemma np_quot_real (x b : R) :
  b <> 0 -> fl x = Fnum x -> fl b = Fnum b -> fl (1 / b) = Fnum (1 / b) ->
  np_quot (c_of (Fnum x)) (c_of (Fnum b)) = c_of (fl (x / b)).
Proof.
  intros Hb Hx Hfb Hi. unfold np_quot, c_of. cbn [real imag fabs f_le].
  destruct (Rle_dec (Rabs 0) (Rabs b)) as [_|N].
  2:{ exfalso. apply N. rewrite Rabs_R0. apply Rabs_pos. }
  rewrite (f_is_zero_num (Rabs b)) by now apply Rabs_no_R0.
  cbn [andb].
  rewrite fdiv_0_num by exact Hb.
  rewrite !fmul_0_r, !fadd_0_r, fsub_0_0, Hx, Hfb.
  rewrite fdiv_num, Hi by exact Hb.
  rewrite fmul_0_l. cbn [fmul].
  replace (x * (1 / b)) with (x / b) by (field; exact Hb). reflexivity.
Qed.

(** The polar form of [np.e ** x] for a real [x]: modulus [exp x],
    phase 0. *)
Lemma c_pow_polar_e (x : R) :
  c_pow_polar (c_of (Fnum (exp 1))) (c_of (Fnum x))
  = Cx (fmul (fl (exp x)) (Fnum 1)) (fmul (fl (exp x)) (Fnum 0)).
Proof.
  pose proof exp_1_gt_2 as He.
  assert (fhypot (Fnum (exp 1)) (Fnum 0) = Fnum (exp 1)) as Hh.
  { cbn [fhypot]. rewrite Rmult_0_r, Rplus_0_r, sqrt_square by lra.
    apply (fl_keeps 3); [lra|lra|exact within_exp1]. }
  assert (fatan2 (Fnum 0) (Fnum (exp 1)) = Fnum 0) as Ha.
  { cbn [fatan2]. unfold atan2.
    destruct (Rlt_dec 0 (exp 1)) as [_|N]; [|lra].
    replace (0 / exp 1) with 0 by (unfold Rdiv; ring).
    rewrite atan_0. exact fl_0. }
  assert (fpow (Fnum (exp 1)) (Fnum x) = fl (exp x)) as Hp.
  { unfold fpow. destruct (Req_dec_T x 0) as [->|Hx].
    - rewrite f_is_zero_0, exp_0. symmetry.
      apply (fl_keeps 1); [lra|lra|]. apply within_pos; lra.
    - rewrite f_is_zero_num by exact Hx.
      destruct (Req_dec_T (exp 1) 1) as [E|_]; [lra|].
      destruct (Req_dec_T (exp 1) 0) as [E|_]; [lra|].
      destruct (Rlt_dec (exp 1) 0) as [E|_]; [lra|].
      unfold Rpower. now rewrite ln_exp, Rmult_1_r. }
  unfold c_pow_polar, c_of. cbn [real imag].
  rewrite f_is_zero_0, Hh, Ha, Hp, fmul_0_l.
  cbn [fcos fsin]. rewrite cos_0, sin_0, fl_0.
  rewrite (fl_keeps 1 1); [reflexivity|lra|lra|]. apply within_pos; lra.
Qed.

Lemma c_is_zero_of (x : R) : x <> 0 -> c_is_zero (c_of (Fnum x)) = false.
Proof. apply c_is_zero_num. Qed.

Lemma c_is_zero_e : c_is_zero (c_of (Fnum (exp 1))) = false.
Proof. apply c_is_zero_of. pose proof (exp_pos 1). lra. Qed.

Lemma fl_exp (x : R) : exp x <= fl_max -> fl (exp x) = Fnum (flush (exp x)).
Proof.
  intros H. apply fl_flush. pose proof (exp_pos x).
  rewrite Rabs_pos_eq; lra.
Qed.

Lemma fl_exp_overflow (x : R) : fl_max < exp x -> fl (exp x) = Fpinf.
Proof.
  intros H. unfold fl. destruct (Rlt_dec fl_max (exp x)); [reflexivity|].
  contradiction.
Qed.

Lemma fmul_flushed_1 (x : R) :
  Rabs x <= fl_max -> fmul (Fnum (flush x)) (Fnum 1) = Fnum (flush x).
Proof. intros H. cbn [fmul]. rewrite Rmult_1_r. now apply fl_flushed. Qed.

(** An exponential within the range of a double: both powers agree. *)
Lemma c_pow_e_finite (x : R) :
  exp x <= fl_max ->
  c_pow (c_of (Fnum (exp 1))) (c_of (Fnum x))
  = Ok (c_of (Fnum (flush (exp x)))) /\
  np_power (c_of (Fnum (exp 1))) (c_of (Fnum x))
  = c_of (Fnum (flush (exp x))).
Proof.
  intros H. pose proof (exp_pos x) as Hpos.
  assert (Rabs (exp x) <= fl_max) as Habs by (rewrite Rabs_pos_eq; lra).
  unfold c_pow, np_power.
  destruct (Req_dec_T x 0) as [->|Hx].
  - change (c_of (Fnum 0)) with c_0j. rewrite c_is_zero_0j, exp_0.
    assert (flush 1 = 1) as ->; [|split; reflexivity].
    apply flush_within. apply (within_le 1); [lra|lra|].
    apply within_pos; lra.
  - rewrite (c_is_zero_of x Hx), c_is_zero_e.
    rewrite c_pow_polar_e, (fl_exp x H), fmul_0_r.
    rewrite (fmul_flushed_1 _ Habs). cbn [real imag f_is_inf orb].
    split; reflexivity.
Qed.

(** An exponential beyond the range: Python raises, NumPy returns an
    infinite real part and nan as the imaginary part. *)
Lemma c_pow_e_overflow (x : R) :
  fl_max < exp x ->
  c_pow (c_of (Fnum (exp 1))) (c_of (Fnum x)) = Raise OverflowError /\
  np_power (c_of (Fnum (exp 1))) (c_of (Fnum x)) = Cx Fpinf Fnan.
Proof.
  intros H.
  assert (x <> 0) as Hx.
  { intros ->. rewrite exp_0 in H. pose proof fl_max_big. lra. }
  assert (inf_times true 1 = Fpinf) as H1.
  { unfold inf_times. destruct (Req_dec_T 1 0); [lra|].
    destruct (Rlt_dec 0 1); [reflexivity|lra]. }
  assert (inf_times true 0 = Fnan) as H0.
  { unfold inf_times. destruct (Req_dec_T 0 0) as [_|N]; [reflexivity|].
    now destruct N. }
  unfold c_pow, np_power.
  rewrite (c_is_zero_of x Hx), c_is_zero_e.
  rewrite c_pow_polar_e, (fl_exp_overflow x H). cbn [fmul].
  rewrite H1, H0. split; reflexivity.
Qed.

(** [np.e ** (y * ln 2)] is 2 to the power [y]: within the range up to
    [y = 1023], beyond it from [y = 1024]. *)
Lemma exp_le_fl_max (y : R) : y <= 1023 -> exp (y * ln 2) <= fl_max.
Proof.
  intros Hy. change (exp (y * ln 2)) with (Rpower 2 y).
  apply Rle_trans with (Rpower 2 (INR 1023)).
  - apply Rle_Rpower; [lra|]. rewrite INR_IZR_INZ. simpl. exact Hy.
  - rewrite Rpower_pow by lra. exact pow2_1023_le_fl_max.
Qed.

Lemma exp_gt_fl_max (y : R) : 1024 <= y -> fl_max < exp (y * ln 2).
Proof.
  intros Hy. change (exp (y * ln 2)) with (Rpower 2 y).
  apply Rlt_le_trans with (Rpower 2 (INR 1024)).
  - rewrite Rpower_pow by lra. exact fl_max_lt_pow2_1024.
  - apply Rle_Rpower; [lra|]. rewrite INR_IZR_INZ. simpl. exact Hy.
Qed.

(** *** The terms of [res] for moderate [A] and [W] *)

Lemma moderate_nonzero (x : R) : moderate x -> x <> 0.
Proof. apply within_nonzero. apply pow_lt. lra. Qed.

Lemma moderate_of_pos (x : R) : / 10 ^ 70 <= x <= 10 ^ 70 -> moderate x.
Proof. apply within_pos. apply pow_lt. lra. Qed.

Lemma moderate_le (x : R) : moderate x -> Rabs x <= 10 ^ 70.
Proof. now intros [_ U]. Qed.

Lemma in_range_le (x : R) : in_range x -> Rabs x <= 10 ^ 70.
Proof.
  intros [->|H]; [|now apply moderate_le].
  rewrite Rabs_R0. apply pow_le. lra.
Qed.

Lemma zip_with_map {T U V W : Type} (f : U -> V -> W) (g : T -> U)
  (h : T -> V) (l : list T) :
  zip_with f (map g l) (map h l) = map (fun x => f (g x) (h x)) l.
Proof. induction l as [|x l IH]; simpl; [reflexivity|now rewrite IH]. Qed.

Lemma nd_map_map {T U V : Type} (f : T -> U) (g : U -> V) (a : nd T) :
  nd_map g (nd_map f a) = nd_map (fun x => g (f x)) a.
Proof. destruct a; simpl; [reflexivity|now rewrite map_map]. Qed.

Lemma nd_map_ext (P : R -> Prop) {U : Type} (f g : R -> U) (a : nd R) :
  (forall x, P x -> f x = g x) -> nd_forall P a -> nd_map f a = nd_map g a.
Proof.
  intros Hfg. destruct a as [x|xs]; simpl.
  - intros Hx. now rewrite Hfg.
  - intros Hxs. f_equal. induction Hxs as [|x xs Hx _ IH]; simpl;
      [reflexivity|]. now rewrite Hfg, IH.
Qed.

Lemma nd_forall_impl (P Q : R -> Prop) (a : nd R) :
  (forall x, P x -> Q x) -> nd_forall P a -> nd_forall Q a.
Proof.
  intros HPQ. destruct a as [x|xs]; simpl; [apply HPQ|].
  apply Forall_impl. exact HPQ.
Qed.

(** Rewrite [fl x] to [Fnum x] from a bound [H : within c x]. *)
Ltac keeps H :=
  let T := type of H in
  match eval unfold moderate in T with
  | within ?c ?x => rewrite (fl_keeps c x ltac:(lra) ltac:(lra) H)
  end.

Ltac kept H :=
  let T := type of H in
  match eval unfold moderate in T with
  | within ?c ?x => exact (fl_keeps c x ltac:(lra) ltac:(lra) H)
  end.

Ltac pow_keeps H :=
  match type of H with
  | within ?c (?x ^ ?n) =>
      rewrite (float_pow_keeps c x n ltac:(lra) ltac:(lra) H)
  end.

Section Moderate.

Variables A W : R.
Hypothesis HA : moderate A.
Hypothesis HW : moderate W.

Let scale : R := - (W / A / 8 / ln 2).

Lemma hrf_power_moderate : hrf_power A W = Ok c_0j.
Proof.
  pose proof (moderate_nonzero A HA) as HA0.
  pose proof (moderate_nonzero W HW) as HW0.
  assert (0 < 10 ^ 70) as Hm by (apply pow_lt; lra).
  assert (within (10 ^ 70 * 10 ^ 70) (A ^ 2)) as Ha2.
  { replace (A ^ 2) with (A * A) by ring. now apply within_mult. }
  assert (within (10 ^ 70 * 10 ^ 70) (W ^ 2)) as Hw2.
  { replace (W ^ 2) with (W * W) by ring. now apply within_mult. }
  assert (within (10 ^ 70 * 10 ^ 70 * (10 ^ 70 * 10 ^ 70)) (A ^ 2 / W ^ 2))
    as Hq by (apply within_div; auto; lra).
  assert (within (10 ^ 70 * 10 ^ 70 * (10 ^ 70 * 10 ^ 70) * 8)
            (A ^ 2 / W ^ 2 * 8)) as Hq8.
  { apply within_mult; [lra|lra|exact Hq|exact within_8]. }
  assert (within (10 ^ 70 * 10 ^ 70 * (10 ^ 70 * 10 ^ 70) * 8 * 2)
            (A ^ 2 / W ^ 2 * 8 * ln 2)) as Hq8l.
  { apply within_mult; [lra|lra|exact Hq8|exact within_ln2]. }
  unfold hrf_power.
  pow_keeps Ha2.
  pow_keeps Hw2.
  cbn [bind].
  rewrite py_div_num
    by (apply (within_nonzero (10 ^ 70 * 10 ^ 70)); [lra|exact Hw2]).
  cbn [bind].
  keeps Hq. cbn [fmul].
  keeps Hq8. cbn [fmul].
  keeps Hq8l.
  apply c_pow_0j_pos.
  apply Rmult_lt_0_compat; [|exact ln2_pos].
  apply Rmult_lt_0_compat; [|lra].
  apply Rdiv_lt_0_compat; nra.
Qed.

Lemma within_scale : within (10 ^ 70 * 10 ^ 70 * 8 * 2) scale.
Proof.
  assert (0 < 10 ^ 70) as Hm by (apply pow_lt; lra).
  apply within_opp.
  apply within_div; [lra|lra| |exact within_ln2].
  apply within_div; [lra|lra| |exact within_8].
  now apply within_div.
Qed.

Lemma scale_nonzero : scale <> 0.
Proof.
  assert (0 < 10 ^ 70) as Hm by (apply pow_lt; lra).
  apply (within_nonzero (10 ^ 70 * 10 ^ 70 * 8 * 2)); [lra|].
  exact within_scale.
Qed.

Lemma within_scale_inv : within (10 ^ 70 * 10 ^ 70 * 8 * 2) (/ scale).
Proof. apply within_inv; [lra|exact within_scale]. Qed.

Lemma hrf_scale_moderate : hrf_scale A W = Ok (c_of (Fnum scale)).
Proof.
  pose proof (moderate_nonzero A HA) as HA0.
  assert (0 < 10 ^ 70) as Hm by (apply pow_lt; lra).
  pose proof ln2_pos as Hl.
  assert (within (10 ^ 70 * 10 ^ 70) (W / A)) as H1
    by now apply within_div.
  assert (within (10 ^ 70 * 10 ^ 70 * 8) (W / A / 8)) as H2.
  { apply within_div; [lra|lra|exact H1|exact within_8]. }
  assert (within (10 ^ 70 * 10 ^ 70 * 8 * 2) (W / A / 8 / ln 2)) as H3.
  { apply within_div; [lra|lra|exact H2|exact within_ln2]. }
  unfold hrf_scale.
  rewrite c_pow_0j_pos by lra. cbn [bind].
  assert (c_sum (c_of (Fnum W)) c_0j = c_of (Fnum W)) as ->.
  { unfold c_sum, c_of, c_0j. cbn [real imag].
    rewrite fadd_0_r, fadd_0_0.
    now keeps HW. }
  rewrite c_quot_real;
    [|exact HA0
     |kept HW
     |kept HA].
  cbn [bind]. keeps H1.
  rewrite c_quot_real;
    [|lra
     |kept H1
     |kept within_8].
  cbn [bind]. keeps H2.
  rewrite c_quot_real;
    [|lra
     |kept H2
     |kept within_ln2].
  cbn [bind]. keeps H3.
  unfold c_neg, c_of. cbn [real imag fneg]. now rewrite Ropp_0.
Qed.

(** The exponent of [np.e], as Python and as NumPy compute it: the
    quotient of [t - A] by the scale, each flushed to zero when it
    underflows. *)
Let exponent (t : R) : R := flush (flush (t + - A) / scale).

Lemma difference_le (t : R) :
  Rabs t <= 10 ^ 70 -> Rabs (t + - A) <= 10 ^ 70 + 10 ^ 70.
Proof.
  intros Ht. apply Rabs_plus_le; [exact Ht|].
  rewrite Rabs_Ropp. now apply moderate_le.
Qed.

Lemma quotient_le (t : R) :
  Rabs t <= 10 ^ 70 ->
  Rabs (flush (t + - A) / scale)
  <= (10 ^ 70 + 10 ^ 70) * (10 ^ 70 * 10 ^ 70 * 8 * 2).
Proof.
  intros Ht. assert (0 < 10 ^ 70) as Hm by (apply pow_lt; lra).
  apply Rabs_mult_le.
  - pose proof (flush_le (t + - A)). pose proof (difference_le t Ht). lra.
  - apply within_scale_inv.
Qed.

Lemma fsub_t_A (t : R) :
  Rabs t <= 10 ^ 70 ->
  fsub (Fnum t) (Fnum A) = Fnum (flush (t + - A)).
Proof.
  intros Ht. unfold fsub. cbn [fneg fadd]. apply fl_flush.
  pose proof (difference_le t Ht). pose proof fl_max_big.
  assert (0 < 10 ^ 70) as Hm by (apply pow_lt; lra). lra.
Qed.

Lemma fl_difference (t : R) :
  Rabs t <= 10 ^ 70 -> fl (flush (t + - A)) = Fnum (flush (t + - A)).
Proof.
  intros Ht. apply fl_flushed.
  pose proof (difference_le t Ht). pose proof fl_max_big.
  assert (0 < 10 ^ 70) as Hm by (apply pow_lt; lra). lra.
Qed.

Lemma fl_scale : fl scale = Fnum scale.
Proof.
  assert (0 < 10 ^ 70) as Hm by (apply pow_lt; lra).
  kept within_scale.
Qed.

Lemma fl_quotient (t : R) :
  Rabs t <= 10 ^ 70 ->
  fl (flush (t + - A) / scale) = Fnum (exponent t).
Proof.
  intros Ht. apply fl_flush.
  pose proof (quotient_le t Ht). pose proof fl_max_big. lra.
Qed.

(** Python's quotient. *)
Lemma hrf_quot_scalar (t : R) :
  Rabs t <= 10 ^ 70 ->
  c_quot (c_of (fsub (Fnum t) (Fnum A))) (c_of (Fnum scale))
  = Ok (c_of (Fnum (exponent t))).
Proof.
  intros Ht. rewrite (fsub_t_A t Ht).
  rewrite c_quot_real;
    [|exact scale_nonzero|exact (fl_difference t Ht)|exact fl_scale].
  now rewrite (fl_quotient t Ht).
Qed.

(** NumPy's quotient. *)
Lemma hrf_quot_array (t : R) :
  Rabs t <= 10 ^ 70 ->
  np_quot (c_of (fsub (Fnum t) (Fnum A))) (c_of (Fnum scale))
  = c_of (Fnum (exponent t)).
Proof.
  intros Ht. assert (0 < 10 ^ 70) as Hm by (apply pow_lt; lra).
  rewrite (fsub_t_A t Ht).
  rewrite np_quot_real;
    [|exact scale_nonzero|exact (fl_difference t Ht)|exact fl_scale|].
  - now rewrite (fl_quotient t Ht).
  - apply (fl_keeps (10 ^ 70 * 10 ^ 70 * 8 * 2)); [lra|lra|].
    unfold Rdiv. rewrite Rmult_1_l.
    apply within_scale_inv.
Qed.

(** The exponent is zero (after an underflow) or
    [hrf_exponent t A W * ln 2]. *)
Lemma quotient_exact (t : R) :
  (t + - A) / scale = hrf_exponent t A W * ln 2.
Proof.
  pose proof (moderate_nonzero A HA) as HA0.
  pose proof (moderate_nonzero W HW) as HW0.
  pose proof ln2_pos as Hl.
  unfold scale, hrf_exponent. field. repeat split; lra || assumption.
Qed.

Lemma exponent_cases (t : R) :
  exponent t = 0 \/ exponent t = hrf_exponent t A W * ln 2.
Proof.
  unfold exponent.
  destruct (flush_cases (flush (t + - A) / scale)) as [-> | ->];
    [|now left].
  destruct (flush_cases (t + - A)) as [-> | ->].
  - right. apply quotient_exact.
  - left. unfold Rdiv. ring.
Qed.

Lemma exp_exponent_le (t : R) :
  hrf_exponent t A W <= 1023 -> exp (exponent t) <= fl_max.
Proof.
  intros Hy. destruct (exponent_cases t) as [-> | ->].
  - rewrite exp_0. pose proof fl_max_big.
    assert (1 <= 10 ^ 300) by (apply pow_R1_Rle; lra). lra.
  - now apply exp_le_fl_max.
Qed.

(** A large exponent does not underflow on the way. *)
Lemma exponent_kept (t : R) :
  Rabs t <= 10 ^ 70 -> 1024 <= hrf_exponent t A W ->
  exponent t = hrf_exponent t A W * ln 2.
Proof.
  intros Ht Hy. assert (0 < 10 ^ 70) as Hm by (apply pow_lt; lra).
  pose proof fl_tiny_small as Htiny. pose proof fl_tiny_pos as Htp.
  pose proof ln_lt_2 as Hl.
  assert (/ 10 ^ 300 * (10 ^ 70 * 8 * 10 ^ 70) <= 1) as Hc by lra.
  assert (flush (t + - A) = t + - A) as Hd.
  { unfold flush. destruct (Rle_dec (Rabs (t + - A)) fl_tiny) as [S|_];
      [exfalso|reflexivity].
    assert (Rabs (hrf_exponent t A W) <= fl_tiny * (10 ^ 70 * 8 * 10 ^ 70))
      as Hb.
    { unfold hrf_exponent.
      replace ((A - t) * A * 8 / W) with (- (t + - A) * (A * 8 * / W))
        by (field; now apply moderate_nonzero).
      apply Rabs_mult_le; [now rewrite Rabs_Ropp|].
      apply Rabs_mult_le.
      - apply Rabs_mult_le; [now apply moderate_le|].
        rewrite Rabs_pos_eq; lra.
      - apply (within_inv _ _ Hm HW). }
    pose proof (Rabs_bounds (hrf_exponent t A W)). nra. }
  unfold exponent. rewrite Hd, quotient_exact.
  unfold flush.
  destruct (Rle_dec (Rabs (hrf_exponent t A W * ln 2)) fl_tiny) as [S|_];
    [exfalso|reflexivity].
  pose proof (Rabs_bounds (hrf_exponent t A W * ln 2)). nra.
Qed.

Lemma exp_exponent_gt (t : R) :
  Rabs t <= 10 ^ 70 -> 1024 <= hrf_exponent t A W ->
  fl_max < exp (exponent t).
Proof.
  intros Ht Hy. rewrite (exponent_kept t Ht Hy). now apply exp_gt_fl_max.
Qed.

(** [K * (t / A)], flushed where it underflows. *)
Lemma hrf_linear_term (t K : R) :
  Rabs t <= 10 ^ 70 -> Rabs K <= 10 ^ 70 ->
  fmul (Fnum K) (fdiv (Fnum t) (Fnum A))
  = Fnum (flush (K * flush (t / A))) /\
  fl (flush (K * flush (t / A))) = Fnum (flush (K * flush (t / A))).
Proof.
  intros Ht HK. assert (0 < 10 ^ 70) as Hm by (apply pow_lt; lra).
  pose proof fl_max_big as Hbig.
  assert (Rabs (t / A) <= 10 ^ 70 * 10 ^ 70) as Hq.
  { apply Rabs_mult_le; [exact Ht|]. apply (within_inv _ _ Hm HA). }
  assert (Rabs (K * flush (t / A)) <= 10 ^ 70 * (10 ^ 70 * 10 ^ 70)) as Hp.
  { apply Rabs_mult_le; [exact HK|]. pose proof (flush_le (t / A)). lra. }
  rewrite fdiv_num by now apply moderate_nonzero.
  rewrite fl_flush by lra. cbn [fmul].
  rewrite fl_flush by lra. split; [reflexivity|].
  apply fl_flushed. lra.
Qed.

(** One entry of [res] when the exponential stays in range: the power
    of [0j] cancels it. *)
Lemma hrf_entry_sum (K t x : R) :
  Rabs t <= 10 ^ 70 -> Rabs K <= 10 ^ 70 ->
  c_sum (c_of (fmul (Fnum K) (fdiv (Fnum t) (Fnum A))))
    (c_prod c_0j (c_of (Fnum x)))
  = c_of (Fnum (flush (K * flush (t / A)))).
Proof.
  intros Ht HK. destruct (hrf_linear_term t K Ht HK) as [-> Hfl].
  unfold c_of at 2. rewrite c_prod_0j.
  unfold c_sum, c_of, c_0j. cbn [real imag].
  now rewrite fadd_0_r, fadd_0_0, Hfl.
Qed.

(** One entry of [res] when the exponential overflows under NumPy. *)
Lemma hrf_entry_nan (q : xfloat) :
  c_sum (c_of q) (c_prod c_0j (Cx Fpinf Fnan)) = Cx Fnan Fnan.
Proof.
  assert (inf_times true 0 = Fnan) as H0.
  { unfold inf_times. destruct (Req_dec_T 0 0) as [_|N]; [reflexivity|].
    now destruct N. }
  unfold c_sum, c_prod, c_of, c_0j. cbn [real imag fmul fsub fadd fneg].
  rewrite H0. cbn [fadd]. destruct q; reflexivity.
Qed.

Lemma hrf_res_scalar_moderate (t K : R) :
  Rabs t <= 10 ^ 70 -> Rabs K <= 10 ^ 70 ->
  hrf_exponent t A W <= 1023 ->
  hrf_res_scalar t A W K = Ok (c_of (Fnum (flush (K * flush (t / A))))).
Proof.
  intros Ht HK Hy. unfold hrf_res_scalar.
  rewrite py_div_num by now apply moderate_nonzero.
  rewrite <- fdiv_num by now apply moderate_nonzero.
  cbn [bind]. rewrite hrf_power_moderate, hrf_scale_moderate. cbn [bind].
  rewrite (hrf_quot_scalar t Ht). cbn [bind].
  destruct (c_pow_e_finite _ (exp_exponent_le t Hy)) as [-> _]. cbn [bind].
  now rewrite hrf_entry_sum.
Qed.

Lemma hrf_res_scalar_overflow (t K : R) :
  Rabs t <= 10 ^ 70 -> 1024 <= hrf_exponent t A W ->
  hrf_res_scalar t A W K = Raise OverflowError.
Proof.
  intros Ht Hy. unfold hrf_res_scalar.
  rewrite py_div_num by now apply moderate_nonzero.
  cbn [bind]. rewrite hrf_power_moderate, hrf_scale_moderate. cbn [bind].
  rewrite (hrf_quot_scalar t Ht). cbn [bind].
  destruct (c_pow_e_overflow _ (exp_exponent_gt t Ht Hy)) as [-> _].
  reflexivity.
Qed.

(** The array [res], entry by entry. *)
Lemma hrf_res_array_entries (t : list R) (K : R) :
  hrf_res_array t A W K
  = Ok (map (fun ti =>
               c_sum (c_of (fmul (Fnum K) (fdiv (Fnum ti) (Fnum A))))
                 (c_prod c_0j
                    (np_power (c_of (Fnum (exp 1)))
                       (np_quot (c_of (fsub (Fnum ti) (Fnum A)))
                          (c_of (Fnum scale)))))) t).
Proof.
  unfold hrf_res_array.
  rewrite hrf_power_moderate, hrf_scale_moderate. cbn [bind].
  now rewrite map_map, zip_with_map.
Qed.

Lemma hrf_res_array_moderate (t : list R) (K : R) :
  Rabs K <= 10 ^ 70 ->
  Forall (fun ti => Rabs ti <= 10 ^ 70 /\ hrf_exponent ti A W <= 1023) t ->
  hrf_res_array t A W K
  = Ok (map (fun ti => c_of (Fnum (flush (K * flush (ti / A))))) t).
Proof.
  intros HK Ht. rewrite hrf_res_array_entries. f_equal.
  apply map_ext_in. intros ti Hin.
  destruct (proj1 (Forall_forall _ _) Ht ti Hin) as [Hti Hy].
  rewrite (hrf_quot_array ti Hti).
  destruct (c_pow_e_finite _ (exp_exponent_le ti Hy)) as [_ ->].
  now apply hrf_entry_sum.
Qed.

Lemma hrf_res_array_overflow (t : list R) (K : R) :
  Forall (fun ti => Rabs ti <= 10 ^ 70 /\ 1024 <= hrf_exponent ti A W) t ->
  hrf_res_array t A W K = Ok (map (fun _ => Cx Fnan Fnan) t).
Proof.
  intros Ht. rewrite hrf_res_array_entries. f_equal.
  apply map_ext_in. intros ti Hin.
  destruct (proj1 (Forall_forall _ _) Ht ti Hin) as [Hti Hy].
  rewrite (hrf_quot_array ti Hti).
  destruct (c_pow_e_overflow _ (exp_exponent_gt ti Hti Hy)) as [_ ->].
  apply hrf_entry_nan.
Qed.

(** Nothing underflows for a [t] and a [K] that are zero or moderate. *)
Lemma flush_linear (t K : R) :
  in_range t -> in_range K -> flush (K * flush (t / A)) = K * t / A.
Proof.
  intros Ht HK. assert (0 < 10 ^ 70) as Hm by (apply pow_lt; lra).
  pose proof (moderate_nonzero A HA) as HA0.
  destruct Ht as [->|Ht].
  { replace (0 / A) with 0 by (unfold Rdiv; ring).
    rewrite flush_0, Rmult_0_r, flush_0. unfold Rdiv. ring. }
  assert (within (10 ^ 70 * 10 ^ 70) (t / A)) as Hq
    by now apply within_div.
  rewrite (flush_within (t / A))
    by (apply (within_le (10 ^ 70 * 10 ^ 70)); [lra|lra|exact Hq]).
  destruct HK as [->|HK].
  { rewrite Rmult_0_l, flush_0. unfold Rdiv. ring. }
  assert (within (10 ^ 70 * (10 ^ 70 * 10 ^ 70)) (K * (t / A))) as Hp.
  { apply within_mult; [lra|lra|exact HK|exact Hq]. }
  rewrite (flush_within (K * (t / A)))
    by (apply (within_le (10 ^ 70 * (10 ^ 70 * 10 ^ 70)));
        [lra|lra|exact Hp]).
  unfold Rdiv. ring.
Qed.

End Moderate.

(** *** single_gamma_hrf *)

(** The complex [res] for moderate parameters and an exponential factor
    within the range: the real numbers [K * (t / A)], entry by entry. *)
Lemma single_gamma_hrf_res_moderate (t : nd R) (A W K : pyval) :
  moderate (float A) -> moderate (float W) -> Rabs (float K) <= 10 ^ 70 ->
  nd_forall (fun ti => Rabs ti <= 10 ^ 70 /\
                       hrf_exponent ti (float A) (float W) <= 1023) t ->
  single_gamma_hrf_res t A W K
  = Ok (nd_map (fun ti =>
                  c_of (Fnum (flush (float K * flush (ti / float A))))) t).
Proof.
  intros HA HW HK Ht. unfold single_gamma_hrf_res.
  destruct t as [x|xs]; cbn [nd_forall nd_map] in *.
  - destruct Ht as [Hx Hy]. now rewrite hrf_res_scalar_moderate.
  - now rewrite hrf_res_array_moderate.
Qed.

Lemma single_gamma_hrf_moderate (t : nd R) (A W K : pyval) :
  moderate (float A) -> moderate (float W) -> Rabs (float K) <= 10 ^ 70 ->
  nd_forall (fun ti => Rabs ti <= 10 ^ 70 /\
                       hrf_exponent ti (float A) (float W) <= 1023) t ->
  single_gamma_hrf t A W K
  = Ok (nd_map (fun ti => Fnum (flush (float K * flush (ti / float A)))) t).
Proof.
  intros HA HW HK Ht. unfold single_gamma_hrf.
  rewrite single_gamma_hrf_res_moderate by assumption. cbn [bind].
  now rewrite nd_map_map.
Qed.

(** With [t] and [K] zero or moderate, nothing underflows either. *)
Lemma single_gamma_hrf_value (t : nd R) (A W K : pyval) :
  moderate (float A) -> moderate (float W) -> in_range (float K) ->
  nd_forall (fun ti => in_range ti /\
                       hrf_exponent ti (float A) (float W) <= 1023) t ->
  single_gamma_hrf t A W K
  = Ok (nd_map (fun ti => Fnum (float K * ti / float A)) t).
Proof.
  intros HA HW HK Ht.
  rewrite single_gamma_hrf_moderate; try assumption.
  - f_equal. eapply nd_map_ext; [|exact Ht].
    intros ti [Hi _]. now rewrite flush_linear.
  - now apply in_range_le.
  - eapply nd_forall_impl; [|exact Ht].
    intros ti [Hi Hy]. split; [now apply in_range_le|exact Hy].
Qed.

(** An exponential factor beyond the range of a double: a scalar call
    raises, an array call returns nan. *)
Lemma single_gamma_hrf_overflow_scalar (t : R) (A W K : pyval) :
  moderate (float A) -> moderate (float W) -> Rabs t <= 10 ^ 70 ->
  1024 <= hrf_exponent t (float A) (float W) ->
  single_gamma_hrf (Scalar t) A W K = Raise OverflowError.
Proof.
  intros HA HW Ht Hy. unfold single_gamma_hrf, single_gamma_hrf_res.
  now rewrite hrf_res_scalar_overflow.
Qed.

Lemma single_gamma_hrf_overflow_array (t : list R) (A W K : pyval) :
  moderate (float A) -> moderate (float W) ->
  Forall (fun ti => Rabs ti <= 10 ^ 70 /\
                    1024 <= hrf_exponent ti (float A) (float W)) t ->
  single_gamma_hrf_res (Array t) A W K
  = Ok (Array (map (fun _ => Cx Fnan Fnan) t)) /\
  single_gamma_hrf (Array t) A W K = Ok (Array (map (fun _ => Fnan) t)).
Proof.
  intros HA HW Ht. unfold single_gamma_hrf, single_gamma_hrf_res.
  rewrite hrf_res_array_overflow by assumption. cbn [bind nd_map].
  now rewrite map_map.
Qed.

(** The call [single_gamma_hrf(0.0, 5.4, 0.2, 1.0)]: the exponent of
    [np.e] is about 808.5, the factor 2 to the power 1166.4. *)
Lemma moderate_5_4 : moderate 5.4.
Proof. apply moderate_of_pos. lra. Qed.

Lemma moderate_0_2 : moderate 0.2.
Proof. apply moderate_of_pos. lra. Qed.

Lemma single_gamma_hrf_overflow_example :
  single_gamma_hrf (Scalar 0) (PyFloat 5.4) (PyFloat 0.2) (PyFloat 1)
  = Raise OverflowError /\
  single_gamma_hrf (Array [0]) (PyFloat 5.4) (PyFloat 0.2) (PyFloat 1)
  = Ok (Array [Fnan]).
Proof.
  assert (1024 <= hrf_exponent 0 5.4 0.2) as Hy
    by (unfold hrf_exponent; lra).
  assert (Rabs 0 <= 10 ^ 70) as H0 by (rewrite Rabs_R0; lra).
  split.
  - apply single_gamma_hrf_overflow_scalar; cbn [float];
      auto using moderate_5_4, moderate_0_2.
  - apply (single_gamma_hrf_overflow_array [0]); cbn [float];
      auto using moderate_5_4, moderate_0_2.
Qed.

(** C1, as stated, fails: for [t = 0], [A = 5.4], [W = 0.2], [K = 1]
    the exponential [np.e ** 808.5] overflows, and Python raises
    OverflowError before the power of [0j] can cancel the factor. *)
Lemma single_gamma_hrf_linear_refuted :
  ~ (forall (t : R) (A W K : pyval),
       0 < float A -> 0 < float W ->
       single_gamma_hrf (Scalar t) A W K
       = Ok (Scalar (Fnum (float K * t / float A)))).
Proof.
  intros Hclaim.
  specialize (Hclaim 0 (PyFloat 5.4) (PyFloat 0.2) (PyFloat 1)).
  rewrite (proj1 single_gamma_hrf_overflow_example) in Hclaim.
  cbn [float] in Hclaim.
  assert (Raise OverflowError = Ok (Scalar (Fnum (1 * 0 / 5.4)))) as E
    by (apply Hclaim; lra).
  discriminate E.
Qed.

(** C1, amended. For a scalar [t], [A] and [W] between 1e-70 and 1e70,
    [t] and [K] zero or of a size in that range, and an exponential
    factor within the range of a double ([(A - t) * A * 8 / W <= 1023];
    the factor is 2 to that power), [single_gamma_hrf] returns
    [K * t / A]: the power of [0j] is zero and cancels the factor. *)
Theorem single_gamma_hrf_linear (t : R) (A W K : pyval) :
  / 10 ^ 70 <= float A <= 10 ^ 70 ->
  / 10 ^ 70 <= float W <= 10 ^ 70 ->
  in_range t -> in_range (float K) ->
  (float A - t) * float A * 8 / float W <= 1023 ->
  single_gamma_hrf (Scalar t) A W K
  = Ok (Scalar (Fnum (float K * t / float A))).
Proof.
  intros HA HW Ht HK Hy.
  apply (single_gamma_hrf_value (Scalar t));
    auto using moderate_of_pos.
  split; assumption.
Qed.

Lemma single_gamma_hrf_linear_witness :
  single_gamma_hrf (Scalar 3) (PyFloat 5.4) (PyFloat 5.2) (PyInt 1)
  = Ok (Scalar (Fnum (1 * 3 / 5.4))).
Proof.
  apply (single_gamma_hrf_linear 3 (PyFloat 5.4) (PyFloat 5.2) (PyInt 1));
    cbn [float]; try lra.
  - right. apply moderate_of_pos. lra.
  - right. apply moderate_of_pos. lra.
Defined.

(** C2, as stated, fails: on the array [[0.0]] with [A = 5.4],
    [W = 0.2] the overflowing exponential makes the entry of [res]
    nan, real and imaginary part, and nan is returned (the scalar call
    raises OverflowError and returns nothing). *)
Lemma single_gamma_hrf_real_valued_refuted :
  ~ (forall (t : nd R) (A W K : pyval),
       0 < float A -> 0 < float W ->
       exists r : nd R,
         single_gamma_hrf t A W K = Ok (nd_map Fnum r) /\
         single_gamma_hrf_res t A W K
         = Ok (nd_map (fun x => Cx (Fnum x) (Fnum 0)) r)).
Proof.
  intros Hclaim.
  destruct (Hclaim (Array [0]) (PyFloat 5.4) (PyFloat 0.2) (PyFloat 1))
    as [r [E _]]; cbn [float]; try lra.
  rewrite (proj2 single_gamma_hrf_overflow_example) in E.
  destruct r as [x|[|x [|y xs]]]; discriminate E.
Qed.

(** C2, amended. For a scalar or array [t] of entries up to 1e70 in
    size, [A] and [W] between 1e-70 and 1e70, [K] up to 1e70 in size and
    exponential factors within the range of a double
    ([(A - t) * A * 8 / W <= 1023] for every entry), the function
    returns real numbers, and the complex [res] it takes them from is
    these numbers with imaginary part zero. *)
Theorem single_gamma_hrf_real_valued (t : nd R) (A W K : pyval) :
  / 10 ^ 70 <= float A <= 10 ^ 70 ->
  / 10 ^ 70 <= float W <= 10 ^ 70 ->
  Rabs (float K) <= 10 ^ 70 ->
  nd_forall (fun ti => Rabs ti <= 10 ^ 70 /\
                       (float A - ti) * float A * 8 / float W <= 1023) t ->
  exists r : nd R,
    single_gamma_hrf t A W K = Ok (nd_map Fnum r) /\
    single_gamma_hrf_res t A W K
    = Ok (nd_map (fun x => Cx (Fnum x) (Fnum 0)) r).
Proof.
  intros HA HW HK Ht.
  exists (nd_map (fun ti => flush (float K * flush (ti / float A))) t).
  rewrite single_gamma_hrf_moderate, single_gamma_hrf_res_moderate;
    auto using moderate_of_pos.
  rewrite !nd_map_map. split; reflexivity.
Qed.

Lemma single_gamma_hrf_real_valued_witness :
  exists r : nd R,
    single_gamma_hrf (Array [0; 1; 2]) (PyFloat 5.4) (PyFloat 5.2) (PyFloat 1)
    = Ok (nd_map Fnum r) /\
    single_gamma_hrf_res (Array [0; 1; 2]) (PyFloat 5.4) (PyFloat 5.2)
      (PyFloat 1)
    = Ok (nd_map (fun x => Cx (Fnum x) (Fnum 0)) r).
Proof.
  apply (single_gamma_hrf_real_valued (Array [0; 1; 2]) (PyFloat 5.4)
           (PyFloat 5.2) (PyFloat 1)); cbn [float nd_forall]; try lra.
  - rewrite Rabs_R1. lra.
  - repeat constructor; try lra;
      rewrite ?Rabs_R0, ?Rabs_R1, ?(Rabs_pos_eq 2) by lra; lra.
Defined.

(** *** double_gamma_hrf *)

(** [float] is idempotent: converting a converted number changes nothing. *)
Lemma float_idempotent (v : pyval) : float (PyFloat (float v)) = float v.
Proof. reflexivity. Qed.

Lemma single_gamma_hrf_float (t : nd R) (A W K : pyval) :
  single_gamma_hrf t (PyFloat (float A)) (PyFloat (float W))
    (PyFloat (float K))
  = single_gamma_hrf t A W K.
Proof.
  unfold single_gamma_hrf, single_gamma_hrf_res.
  now rewrite !float_idempotent.
Qed.

(** C3. [double_gamma_hrf] is the first single-gamma curve minus the
    second, for every parameter choice (an exception of either call
    included). *)
Theorem double_gamma_hrf_difference (t : nd R) (A1 W1 K1 A2 W2 K2 : pyval) :
  double_gamma_hrf t A1 W1 K1 A2 W2 K2
  = (a <- single_gamma_hrf t A1 W1 K1 ;;
     b <- single_gamma_hrf t A2 W2 K2 ;;
     nd_sub a b).
Proof.
  unfold double_gamma_hrf. now rewrite !single_gamma_hrf_float.
Qed.

(** *** The Gaussian mixtures *)

Lemma nd_add_map (f g : R -> R) (x : nd R) :
  nd_add (nd_map f x) (nd_map g x) = Ok (nd_map (fun xi => f xi + g xi) x).
Proof.
  destruct x as [x|xs]; simpl; [reflexivity|].
  unfold broadcast. rewrite !length_map, Nat.eqb_refl. simpl.
  now rewrite zip_with_map.
Qed.

(** [norm_pdf] is the normal density: positive, with the peak value
    [1 / (std * sqrt (2 pi))] at the mean. *)
Lemma norm_pdf_pos (x loc scale : R) : 0 < scale -> 0 < norm_pdf x loc scale.
Proof.
  intros Hs. unfold norm_pdf.
  assert (0 < sqrt (2 * PI)) by (apply sqrt_lt_R0; pose proof PI_RGT_0; lra).
  apply Rdiv_lt_0_compat; [|exact Hs].
  apply Rdiv_lt_0_compat; [apply exp_pos|assumption].
Qed.

Lemma norm_pdf_at_mean (loc scale : R) :
  0 < scale -> norm_pdf loc loc scale = 1 / (scale * sqrt (2 * PI)).
Proof.
  intros Hs. unfold norm_pdf.
  assert (0 < sqrt (2 * PI)) by (apply sqrt_lt_R0; pose proof PI_RGT_0; lra).
  replace (- ((loc - loc) / scale) ^ 2 / 2) with 0 by (field; lra).
  rewrite exp_0. field. split; lra.
Qed.

Lemma dual_gaussian_valid (x : nd R) (amp1 mean1 std1 amp2 mean2 std2 : R) :
  0 < std1 -> 0 < std2 ->
  dual_gaussian x amp1 mean1 std1 amp2 mean2 std2
  = Ok (Num (nd_map (fun xi => amp1 * norm_pdf xi mean1 std1
                               + amp2 * norm_pdf xi mean2 std2) x)).
Proof.
  intros H1 H2. unfold dual_gaussian.
  destruct (Rle_dec std1 0) as [L|_]; [lra|].
  destruct (Rle_dec std2 0) as [L|_]; [lra|].
  now rewrite nd_add_map.
Qed.

Lemma dual_gaussian_invalid (x : nd R) (amp1 mean1 std1 amp2 mean2 std2 : R) :
  std1 <= 0 \/ std2 <= 0 ->
  dual_gaussian x amp1 mean1 std1 amp2 mean2 std2 = Ok NaN.
Proof.
  intros Hs. unfold dual_gaussian.
  destruct (Rle_dec std1 0) as [_|N1]; [reflexivity|].
  destruct (Rle_dec std2 0) as [_|N2]; [reflexivity|].
  lra.
Qed.

(** C4. [dual_gaussian] returns the NaN sentinel, and does not raise,
    exactly when a standard deviation is not positive; for positive ones
    it returns [amp1 * N(x; mean1, std1) + amp2 * N(x; mean2, std2)]. *)
Theorem dual_gaussian_nan_iff (x : nd R)
  (amp1 mean1 std1 amp2 mean2 std2 : R) :
  (dual_gaussian x amp1 mean1 std1 amp2 mean2 std2 = Ok NaN
   <-> std1 <= 0 \/ std2 <= 0) /\
  (0 < std1 -> 0 < std2 ->
   dual_gaussian x amp1 mean1 std1 amp2 mean2 std2
   = Ok (Num (nd_map (fun xi => amp1 * norm_pdf xi mean1 std1
                                + amp2 * norm_pdf xi mean2 std2) x))).
Proof.
  split; [split|].
  - intros E.
    destruct (Rle_dec std1 0) as [L1|N1]; [now left|].
    destruct (Rle_dec std2 0) as [L2|N2]; [now right|].
    rewrite dual_gaussian_valid in E by lra. discriminate E.
  - apply dual_gaussian_invalid.
  - apply dual_gaussian_valid.
Qed.

Lemma dual_gaussian_nan_iff_witness :
  dual_gaussian (Array [0; 1]) 1 0 (-1) 1 0 1 = Ok NaN /\
  dual_gaussian (Scalar 0) 3 2 1 0 0 1
  = Ok (Num (Scalar (3 * norm_pdf 0 2 1 + 0 * norm_pdf 0 0 1))).
Proof.
  split.
  - apply (proj1 (dual_gaussian_nan_iff (Array [0; 1]) 1 0 (-1) 1 0 1)).
    left; lra.
  - apply (proj2 (dual_gaussian_nan_iff (Scalar 0) 3 2 1 0 0 1)); lra.
Defined.

Lemma dual_positive_gaussian_negative (x : nd R)
  (amp1 mean1 std1 amp2 mean2 std2 : R) :
  amp1 < 0 \/ amp2 < 0 ->
  dual_positive_gaussian x amp1 mean1 std1 amp2 mean2 std2 = Ok NaN.
Proof.
  intros Ha. unfold dual_positive_gaussian.
  destruct (Rlt_dec amp1 0) as [_|N1]; [reflexivity|].
  destruct (Rlt_dec amp2 0) as [_|N2]; [reflexivity|].
  lra.
Qed.

Lemma dual_positive_gaussian_nonneg (x : nd R)
  (amp1 mean1 std1 amp2 mean2 std2 : R) :
  0 <= amp1 -> 0 <= amp2 ->
  dual_positive_gaussian x amp1 mean1 std1 amp2 mean2 std2
  = dual_gaussian x amp1 mean1 std1 amp2 mean2 std2.
Proof.
  intros H1 H2. unfold dual_positive_gaussian.
  destruct (Rlt_dec amp1 0) as [L|_]; [lra|].
  destruct (Rlt_dec amp2 0) as [L|_]; [lra|].
  reflexivity.
Qed.

(** C10. [dual_positive_gaussian] returns the NaN sentinel when an
    amplitude is negative, and otherwise what [dual_gaussian] returns on
    the same arguments, the NaN of an invalid standard deviation
    included. *)
Theorem dual_positive_gaussian_delegates (x : nd R)
  (amp1 mean1 std1 amp2 mean2 std2 : R) :
  (amp1 < 0 \/ amp2 < 0 ->
   dual_positive_gaussian x amp1 mean1 std1 amp2 mean2 std2 = Ok NaN) /\
  (0 <= amp1 -> 0 <= amp2 ->
   dual_positive_gaussian x amp1 mean1 std1 amp2 mean2 std2
   = dual_gaussian x amp1 mean1 std1 amp2 mean2 std2) /\
  (0 <= amp1 -> 0 <= amp2 -> std1 <= 0 \/ std2 <= 0 ->
   dual_positive_gaussian x amp1 mean1 std1 amp2 mean2 std2 = Ok NaN).
Proof.
  split; [|split].
  - apply dual_positive_gaussian_negative.
  - apply dual_positive_gaussian_nonneg.
  - intros H1 H2 Hs. rewrite dual_positive_gaussian_nonneg by assumption.
    now apply dual_gaussian_invalid.
Qed.

Lemma dual_positive_gaussian_delegates_witness :
  dual_positive_gaussian (Scalar 0) (-1) 0 1 1 0 1 = Ok NaN /\
  dual_positive_gaussian (Scalar 0) 2 0 1 0 0 1
  = dual_gaussian (Scalar 0) 2 0 1 0 0 1 /\
  dual_positive_gaussian (Scalar 0) 2 0 0 0 0 1 = Ok NaN.
Proof.
  split; [|split].
  - apply (proj1 (dual_positive_gaussian_delegates (Scalar 0) (-1) 0 1 1 0 1)).
    left; lra.
  - apply (proj1 (proj2 (dual_positive_gaussian_delegates
                           (Scalar 0) 2 0 1 0 0 1))); lra.
  - apply (proj2 (proj2 (dual_positive_gaussian_delegates
                           (Scalar 0) 2 0 0 0 0 1))); lra.
Defined.

(** The specification's example: amplitudes 2 and 0 give twice the
    standard normal density. *)
Example dual_positive_gaussian_twice_pdf (x : R) :
  dual_positive_gaussian (Scalar x) 2 0 1 0 0 1
  = Ok (Num (Scalar (2 * norm_pdf x 0 1))).
Proof.
  rewrite dual_positive_gaussian_nonneg by lra.
  rewrite dual_gaussian_valid by lra. simpl.
  do 3 f_equal. ring.
Qed.

End FxProps.

(** ** Properties of the least-squares adapter *)

Module FitProps.
Import Py Fx.
Local Open Scope R_scope.

Lemma length_concat_uniform (m : nat) (rows : list (list R)) :
  Forall (fun r => length r = m) rows ->
  length (concat rows) = (length rows * m)%nat.
Proof.
  induction 1 as [|r rows Hr _ IH]; simpl; [reflexivity|].
  rewrite length_app, Hr, IH. reflexivity.
Qed.

(** Row-major order: entry [i * m + j] of the flattened rows is entry [j]
    of row [i]. *)
Lemma nth_concat_uniform (m : nat) (rows : list (list R)) (i j : nat) :
  Forall (fun r => length r = m) rows ->
  (i < length rows)%nat -> (j < m)%nat ->
  nth (i * m + j) (concat rows) 0 = nth j (nth i rows []) 0.
Proof.
  intros Hall. revert i.
  induction Hall as [|r rows Hr _ IH]; intros i Hi Hj; simpl in Hi; [lia|].
  destruct i as [|i]; simpl.
  - apply app_nth1. lia.
  - rewrite app_nth2 by lia.
    replace (m + i * m + j - length r)%nat with (i * m + j)%nat by lia.
    apply IH; lia.
Qed.

Lemma Forall_repeat {T : Type} (P : T -> Prop) (x : T) (n : nat) :
  P x -> Forall P (repeat x n).
Proof. intros Hx. induction n; simpl; constructor; assumption. Qed.

Lemma nth_repeat_lt {T : Type} (x d : T) (n i : nat) :
  (i < n)%nat -> nth i (repeat x n) d = x.
Proof.
  revert i. induction n as [|n IH]; intros i Hi; [lia|].
  destruct i as [|i]; simpl; [reflexivity|apply IH; lia].
Qed.

(** What the code does to [x] and [y] in each of its three cases. *)
Lemma least_sq_fit_xy_many (m : nat) (rows : list (list R)) (x : ndarray) :
  (2 <= length rows)%nat ->
  least_sq_fit_xy (Arr2 m rows) (Some x)
  = (Arr1 (concat (repeat (ravel x) (length rows))), Arr1 (concat rows)).
Proof.
  intros Hn. unfold least_sq_fit_xy; simpl.
  destruct (Nat.ltb_spec 1 (length rows)) as [_|L]; [reflexivity|lia].
Qed.

Lemma least_sq_fit_xy_few (m : nat) (rows : list (list R)) (x : ndarray) :
  (length rows <= 1)%nat ->
  least_sq_fit_xy (Arr2 m rows) (Some x) = (x, Arr2 m rows).
Proof.
  intros Hn. unfold least_sq_fit_xy; simpl.
  destruct (Nat.ltb_spec 1 (length rows)) as [L|_]; [lia|reflexivity].
Qed.

Lemma least_sq_fit_xy_1d (l : list R) (x : ndarray) :
  least_sq_fit_xy (Arr1 l) (Some x) = (x, Arr1 l).
Proof. reflexivity. Qed.

(** Without [x], the positions [0 .. ylen - 1] stand in for it. *)
Lemma least_sq_fit_xy_default (l : list R) :
  least_sq_fit_xy (Arr1 l) None = (Arr1 (map INR (seq 0 (length l))), Arr1 l).
Proof. reflexivity. Qed.

(** Not every two-dimensional [y] is flattened: one with a single row
    is handed on as it is. *)
Lemma least_sq_fit_flattens_every_2d_refuted :
  ~ (forall (m : nat) (rows : list (list R)) (x : list R),
        Forall (fun r => length r = m) rows -> length x = m ->
        least_sq_fit_xy (Arr2 m rows) (Some (Arr1 x))
        = (Arr1 (concat (repeat x (length rows))), Arr1 (concat rows))).
Proof.
  intros Hclaim.
  specialize (Hclaim 2%nat [[1; 2]] [0; 1]).
  rewrite least_sq_fit_xy_few in Hclaim by (simpl; lia).
  assert (E : (Arr1 [0; 1], Arr2 2 [[1; 2]])
              = (Arr1 (concat (repeat [0; 1] (length [[1; 2]]))),
                 Arr1 (concat [[1; 2]]))).
  { apply Hclaim; [repeat constructor|reflexivity]. }
  discriminate E.
Qed.

(** C5. The code departs from the claim, and from its own comment
    ("transform x and y into 1d arrays") and docstring, on a
    two-dimensional [y] of one row: for [y = [[1, 2]]] (shape (1, 2)) and
    [x = [0, 1]] the guard [nsamp > 1] leaves [x] untiled and [y]
    two-dimensional, and the error function returns a two-dimensional
    residual (here for the fitted function that returns its [x]) where
    the solver takes a vector. *)
Theorem least_sq_fit_one_row_not_flattened :
  least_sq_fit_xy (Arr2 2 [[1; 2]]) (Some (Arr1 [0; 1]))
  = (Arr1 [0; 1], Arr2 2 [[1; 2]]) /\
  least_sq_fit_xy (Arr2 2 [[1; 2]]) (Some (Arr1 [0; 1]))
  <> (Arr1 (concat (repeat [0; 1] 1)), Arr1 (concat [[1; 2]])) /\
  efx (fun x _ _ => Ok x) [] (Arr1 [0; 1]) (Arr2 2 [[1; 2]]) [7]
  = Ok (Arr2 2 [[1 - 0; 2 - 1]]).
Proof.
  split; [reflexivity|split; [discriminate|reflexivity]].
Qed.

Section WithSolver.

Variable leastsq : (list R -> result ndarray) -> list R -> result fit.

(** X19. For a two-dimensional [y] of at least two rows of [m]
    entries and an [x] of [m] entries, [least_sq_fit] returns what the
    solver returns for the error function [y_flat - fx(x_flat, *p,
    **kwargs)], where [x_flat] is [x] repeated once per row and [y_flat]
    the rows of [y] one after the other: entry [i * m + j] of [y_flat] is
    [y[i][j]] and faces [x[j]]. *)
Theorem least_sq_fit_flattens (fx : functor) (params : list R) (kw : kwargs)
  (m : nat) (rows : list (list R)) (x : list R) :
  (2 <= length rows)%nat ->
  Forall (fun r => length r = m) rows ->
  length x = m ->
  let n := length rows in
  let x_flat := concat (repeat x n) in
  let y_flat := concat rows in
  least_sq_fit leastsq fx params (Arr2 m rows) (Some (Arr1 x)) kw
  = leastsq (fun p => f <- fx (Arr1 x_flat) p kw ;;
                      ndarray_sub (Arr1 y_flat) f) params /\
  length x_flat = (n * m)%nat /\
  length y_flat = (n * m)%nat /\
  forall i j : nat, (i < n)%nat -> (j < m)%nat ->
    nth (i * m + j) y_flat 0 = nth j (nth i rows []) 0 /\
    nth (i * m + j) x_flat 0 = nth j x 0.
Proof.
  intros Hn Hrows Hx n x_flat y_flat.
  assert (Hrep : Forall (fun r => length r = m) (repeat x n))
    by now apply Forall_repeat.
  split; [|split; [|split]].
  - unfold least_sq_fit. rewrite least_sq_fit_xy_many by exact Hn.
    reflexivity.
  - unfold x_flat. rewrite (length_concat_uniform m) by exact Hrep.
    now rewrite repeat_length.
  - unfold y_flat. now apply length_concat_uniform.
  - intros i j Hi Hj. split.
    + unfold y_flat. now apply nth_concat_uniform.
    + unfold x_flat. rewrite (nth_concat_uniform m) by
        (try assumption; now rewrite repeat_length).
      now rewrite nth_repeat_lt.
Qed.

(** With one row or none, or a one-dimensional [y], nothing is tiled or
    flattened: the error function is [y - fx(x, *p, **kwargs)] on the
    arrays as they came. *)
Lemma least_sq_fit_as_given (fx : functor) (params : list R) (kw : kwargs)
  (y x : ndarray) :
  (fst (samples y) <= 1)%nat ->
  least_sq_fit leastsq fx params y (Some x) kw
  = leastsq (fun p => f <- fx x p kw ;; ndarray_sub y f) params.
Proof.
  intros Hn. unfold least_sq_fit.
  destruct y as [l|m rows]; simpl in Hn.
  - rewrite least_sq_fit_xy_1d. reflexivity.
  - rewrite least_sq_fit_xy_few by exact Hn. reflexivity.
Qed.

End WithSolver.

Lemma least_sq_fit_flattens_witness :
  let solver := fun (_ : list R -> result ndarray) (p : list R) =>
                  Ok (p, 1%Z) in
  let fx := fun (x : ndarray) (_ : list R) (_ : kwargs) => Ok x in
  least_sq_fit solver fx [7] (Arr2 2 [[1; 2]; [3; 4]]) (Some (Arr1 [0; 1])) []
  = solver (fun p => f <- fx (Arr1 (concat (repeat [0; 1] 2))) p [] ;;
                     ndarray_sub (Arr1 (concat [[1; 2]; [3; 4]])) f) [7].
Proof.
  intros solver fx.
  refine (proj1 (least_sq_fit_flattens solver fx [7] [] 2
                   [[1; 2]; [3; 4]] [0; 1] _ _ _)).
  - simpl; lia.
  - repeat constructor.
  - reflexivity.
Defined.

End FitProps.

(** ** Properties of the histogram pipeline *)

Module HistProps.
Import Py Fx.
Local Open Scope R_scope.

(** Stand-ins for the routines: a solver that returns its start values,
    a histogram routine that lays its edges as NumPy does (and counts
    nothing), a fitted function that returns its argument. *)
Definition returning_solver (_ : list R -> result ndarray) (p : list R)
  : result fit := Ok (p, 1%Z).

Definition outer_edges_histogram (_ : list R) (nbins : Z) (rng : R * R)
  : result (list R * list R) :=
  if (0 <? nbins)%Z then
    if Rle_dec (fst rng) (snd rng) then
      Ok (repeat 0 (Z.to_nat nbins),
          linspace (fst (outer_edges rng)) (snd (outer_edges rng))
            (Z.to_nat nbins))
    else Raise ValueError
  else Raise ValueError.

Definition identity_fx (x : ndarray) (_ : list R) (_ : kwargs)
  : result ndarray := Ok x.

(** *** Rounding to six decimals *)

Lemma Rabs_le_bounds (x a : R) : Rabs x <= a -> - a <= x <= a.
Proof. unfold Rabs. destruct (Rcase_abs x); lra. Qed.

Lemma rint_error (x : R) : Rabs (IZR (rint x) - x) <= 1 / 2.
Proof.
  unfold rint. destruct (base_Int_part x) as [Hl Hu].
  destruct (Rlt_dec (x - IZR (Int_part x)) (1 / 2)) as [L|NL].
  { apply Rabs_le. lra. }
  destruct (Rlt_dec (1 / 2) (x - IZR (Int_part x))) as [G|NG].
  { rewrite plus_IZR. apply Rabs_le. lra. }
  destruct (Z.even (Int_part x)).
  - apply Rabs_le. lra.
  - rewrite plus_IZR. apply Rabs_le. lra.
Qed.

Lemma np_round_error (x : R) (decimals : nat) :
  Rabs (np_round x decimals - x) <= 1 / 2 / 10 ^ decimals.
Proof.
  unfold np_round.
  assert (Hp : 0 < 10 ^ decimals) by (apply pow_lt; lra).
  replace (IZR (rint (x * 10 ^ decimals)) / 10 ^ decimals - x)
    with ((IZR (rint (x * 10 ^ decimals)) - x * 10 ^ decimals)
          / 10 ^ decimals) by (field; lra).
  unfold Rdiv at 1. rewrite Rabs_mult, (Rabs_right (/ 10 ^ decimals)).
  - apply Rmult_le_compat_r; [|apply rint_error].
    left. now apply Rinv_0_lt_compat.
  - left. now apply Rinv_0_lt_compat.
Qed.

(** *** [np.unique] *)

Lemma In_insert_unique (x y : R) (l : list R) :
  In x (insert_unique y l) <-> x = y \/ In x l.
Proof.
  induction l as [|z l IH]; simpl.
  - intuition.
  - destruct (Rlt_dec y z) as [_|_]; simpl; [intuition|].
    destruct (Req_dec_T y z) as [->|_]; simpl; [intuition|].
    rewrite IH. intuition.
Qed.

Lemma In_unique (x : R) (l : list R) : In x (unique l) <-> In x l.
Proof.
  induction l as [|y l IH]; simpl; [reflexivity|].
  rewrite In_insert_unique, IH. intuition.
Qed.

Lemma unique_repeat (v : R) (n : nat) : unique (repeat v (S n)) = [v].
Proof.
  induction n as [|n IH]; [reflexivity|].
  change (unique (repeat v (S (S n))))
    with (insert_unique v (unique (repeat v (S n)))).
  rewrite IH. simpl.
  destruct (Rlt_dec v v) as [L|_]; [lra|].
  destruct (Req_dec_T v v) as [_|N]; [reflexivity|now destruct N].
Qed.

(** The single-value extraction succeeds exactly on one distinct value. *)
Lemma asscalar_unique_ok (l : list R) (w : R) :
  asscalar (unique l) = Ok w ->
  unique l = [w] /\ forall a, In a l -> a = w.
Proof.
  intros E. assert (U : unique l = [w]).
  { destruct (unique l) as [|a [|b u]]; simpl in E; try discriminate E.
    now inversion E. }
  split; [exact U|]. intros a Ha.
  apply In_unique in Ha. rewrite U in Ha. simpl in Ha. intuition.
Qed.

Lemma asscalar_unique_two (l : list R) (a b : R) :
  In a l -> In b l -> a <> b -> asscalar (unique l) = Raise ValueError.
Proof.
  intros Ha Hb Hab.
  destruct (asscalar (unique l)) as [w|e] eqn:E.
  - destruct (asscalar_unique_ok l w E) as [_ Hall].
    exfalso. apply Hab. now rewrite (Hall a Ha), (Hall b Hb).
  - destruct (unique l) as [|x [|y u]]; simpl in E; try discriminate E;
      now inversion E.
Qed.

(** *** The minimum and maximum that give the default range *)

Lemma fold_left_Rmin_spec (l : list R) (x : R) :
  (fold_left Rmin l x = x \/ In (fold_left Rmin l x) l) /\
  fold_left Rmin l x <= x /\
  forall y, In y l -> fold_left Rmin l x <= y.
Proof.
  revert x. induction l as [|z l IH]; intros x; simpl.
  - split; [now left|]. split; [lra|intros y []].
  - destruct (IH (Rmin x z)) as [Hin [Hle Hall]].
    pose proof (Rmin_l x z). pose proof (Rmin_r x z).
    split; [|split].
    + destruct Hin as [E|Hin]; [|now right; right].
      rewrite E. unfold Rmin. destruct (Rle_dec x z); [now left|right; now left].
    + lra.
    + intros y [->|Hy]; [lra|now apply Hall].
Qed.

Lemma np_min_spec (l : list R) (v : R) :
  np_min l = Ok v -> In v l /\ forall y, In y l -> v <= y.
Proof.
  destruct l as [|x l]; simpl; [discriminate|].
  intros E. inversion E; subst. clear E.
  destruct (fold_left_Rmin_spec l x) as [Hin [Hle Hall]].
  split.
  - destruct Hin as [->|Hin]; [now left|now right].
  - intros y [<-|Hy]; [exact Hle|now apply Hall].
Qed.

Lemma fold_left_Rmax_spec (l : list R) (x : R) :
  (fold_left Rmax l x = x \/ In (fold_left Rmax l x) l) /\
  x <= fold_left Rmax l x /\
  forall y, In y l -> y <= fold_left Rmax l x.
Proof.
  revert x. induction l as [|z l IH]; intros x; simpl.
  - split; [now left|]. split; [lra|intros y []].
  - destruct (IH (Rmax x z)) as [Hin [Hle Hall]].
    pose proof (Rmax_l x z). pose proof (Rmax_r x z).
    split; [|split].
    + destruct Hin as [E|Hin]; [|now right; right].
      rewrite E. unfold Rmax. destruct (Rle_dec x z); [right; now left|now left].
    + lra.
    + intros y [->|Hy]; [lra|now apply Hall].
Qed.

Lemma np_max_spec (l : list R) (v : R) :
  np_max l = Ok v -> In v l /\ forall y, In y l -> y <= v.
Proof.
  destruct l as [|x l]; simpl; [discriminate|].
  intros E. inversion E; subst. clear E.
  destruct (fold_left_Rmax_spec l x) as [Hin [Hle Hall]].
  split.
  - destruct Hin as [->|Hin]; [now left|now right].
  - intros y [<-|Hy]; [exact Hle|now apply Hall].
Qed.

(** The default range is the global minimum and maximum of [X]. *)
Lemma default_range_global (X : list (list R)) (lo hi : R) :
  default_range X None = Ok (lo, hi) ->
  In lo (concat X) /\ In hi (concat X) /\
  forall y, In y (concat X) -> lo <= y <= hi.
Proof.
  unfold default_range.
  destruct (np_min (concat X)) as [a|e] eqn:Emin; simpl; [|discriminate].
  destruct (np_max (concat X)) as [b|e] eqn:Emax; simpl; [|discriminate].
  intros E. inversion E; subst. clear E.
  destruct (np_min_spec _ _ Emin) as [Ha Hmin].
  destruct (np_max_spec _ _ Emax) as [Hb Hmax].
  repeat split; auto.
Qed.

(** *** Equal-width edges *)

Lemma zip_with_map2 {T U V W : Type} (f : U -> V -> W) (g : T -> U)
  (h : T -> V) (l : list T) :
  zip_with f (map g l) (map h l) = map (fun x => f (g x) (h x)) l.
Proof. induction l as [|x l IH]; simpl; [reflexivity|now rewrite IH]. Qed.

Lemma map_const {T U : Type} (f : T -> U) (c : U) (l : list T) :
  (forall x, f x = c) -> map f l = repeat c (length l).
Proof.
  intros E. induction l as [|x l IH]; simpl; [reflexivity|].
  now rewrite E, IH.
Qed.

(** Neighbouring edges of [linspace] all differ by minus the bin width. *)
Lemma linspace_differences (lo hi : R) (n : nat) :
  zip_with Rminus (removelast (linspace lo hi n)) (tl (linspace lo hi n))
  = repeat (- ((hi - lo) / INR n)) n.
Proof.
  unfold linspace.
  set (f := fun i : nat => lo + INR i * ((hi - lo) / INR n)).
  assert (Hl : removelast (map f (seq 0 (S n))) = map f (seq 0 n)).
  { rewrite seq_S, map_app. simpl. apply removelast_last. }
  assert (Ht : tl (map f (seq 0 (S n))) = map (fun i => f (S i)) (seq 0 n)).
  { simpl. rewrite <- seq_shift, map_map. reflexivity. }
  rewrite Hl, Ht, zip_with_map2.
  rewrite (map_const _ (- ((hi - lo) / INR n))).
  - now rewrite length_seq.
  - intros i. unfold f. rewrite S_INR. ring.
Qed.

Lemma rounded_widths_linspace (lo hi : R) (n : nat) :
  rounded_widths (linspace lo hi n)
  = repeat (np_round (- ((hi - lo) / INR n)) 6) n.
Proof.
  unfold rounded_widths. rewrite linspace_differences. apply map_repeat.
Qed.

Section WithRoutines.

Variable leastsq : (list R -> result ndarray) -> list R -> result fit.
Variable histogram : list R -> Z -> R * R -> result (list R * list R).

Notation loop_body := (loop_body histogram).
Notation fit2histogram := (fit2histogram leastsq histogram).

(** The first row fixes the bins. *)
Lemma loop_body_first (nbins : Z) (rng : R * R) (st : loop_state)
  (obs counts edges : list R) :
  binning st = None ->
  histogram obs nbins rng = Ok (counts, edges) ->
  loop_body nbins rng st obs
  = (w <- asscalar (unique (rounded_widths edges)) ;;
     Ok (LoopState (H st ++ [counts])
           (Some (Bins (removelast edges) (Rabs w)
                    (map (fun l => l + Rabs w / 2) (removelast edges)))))).
Proof.
  intros Hb Hh. unfold Fx.loop_body. rewrite Hh, Hb. simpl.
  destruct (asscalar (unique (rounded_widths edges))); reflexivity.
Qed.

(** Later rows leave them as they are. *)
Lemma foldM_keeps_bins (nbins : Z) (rng : R * R) (X : list (list R))
  (st st' : loop_state) (b : bins) :
  binning st = Some b ->
  foldM (loop_body nbins rng) st X = Ok st' ->
  binning st' = Some b.
Proof.
  revert st. induction X as [|obs X IH]; intros st Hb; simpl.
  - intros E. inversion E; subst. exact Hb.
  - unfold Fx.loop_body at 1. rewrite Hb.
    destruct (histogram obs nbins rng) as [hi|e]; simpl; [|discriminate].
    apply IH. reflexivity.
Qed.

(** What a normal return tells about the run. *)
Lemma fit2histogram_inv (X : list (list R)) (fx : functor) (params : list R)
  (nbins : Z) (x_range : option (R * R)) (Harr : ndarray) (bl : list R)
  (bw : R) (f : fit) :
  fit2histogram X fx params nbins x_range = Ok (Harr, bl, bw, f) ->
  exists rng obs rest counts edges w,
    default_range X x_range = Ok rng /\
    X = obs :: rest /\
    histogram obs nbins rng = Ok (counts, edges) /\
    asscalar (unique (rounded_widths edges)) = Ok w /\
    bw = Rabs w /\
    bl = removelast edges.
Proof.
  unfold Fx.fit2histogram.
  destruct (default_range X x_range) as [rng|e]; simpl; [|discriminate].
  destruct X as [|obs rest]; simpl; [discriminate|].
  destruct (histogram obs nbins rng) as [[counts edges]|e] eqn:Hh.
  2:{ unfold Fx.loop_body. rewrite Hh. simpl. discriminate. }
  rewrite (loop_body_first nbins rng (LoopState [] None) obs counts edges
             eq_refl Hh).
  destruct (asscalar (unique (rounded_widths edges))) as [w|e] eqn:Hw;
    simpl; [|discriminate].
  match goal with
  | |- context [foldM ?body ?s rest] =>
      destruct (foldM body s rest) as [st|e] eqn:Hf
  end; simpl; [|discriminate].
  pose proof (fun b Hb => foldM_keeps_bins _ _ _ _ _ b Hb Hf) as Hkeep.
  rewrite (Hkeep _ eq_refl). simpl.
  match goal with
  | |- context [least_sq_fit ?a ?b ?c ?d ?e ?g] =>
      destruct (least_sq_fit a b c d e g) as [r|e']
  end; simpl; [|discriminate].
  intros E. inversion E; subst.
  exists rng, obs, rest, counts, edges, w. repeat split; assumption.
Qed.

(** C8. When the rounded differences of the first row's histogram edges
    hold more than one distinct value, [fit2histogram] raises ValueError
    (the single-value extraction fails); a normal return means that they
    all are one value. *)
Theorem fit2histogram_needs_one_width (X : list (list R)) (fx : functor)
  (params : list R) (nbins : Z) (x_range : option (R * R)) (rng : R * R)
  (obs : list R) (rest : list (list R)) (counts edges : list R) :
  X = obs :: rest ->
  default_range X x_range = Ok rng ->
  histogram obs nbins rng = Ok (counts, edges) ->
  ((exists a b, In a (rounded_widths edges) /\
                In b (rounded_widths edges) /\ a <> b) ->
   fit2histogram X fx params nbins x_range = Raise ValueError) /\
  (forall r, fit2histogram X fx params nbins x_range = Ok r ->
   exists w, unique (rounded_widths edges) = [w] /\
             forall a, In a (rounded_widths edges) -> a = w).
Proof.
  intros -> Hr Hh. split.
  - intros (a & b & Ha & Hb & Hab).
    unfold Fx.fit2histogram. rewrite Hr. simpl.
    rewrite (loop_body_first nbins rng (LoopState [] None) obs counts edges
             eq_refl Hh).
    now rewrite (asscalar_unique_two _ a b Ha Hb Hab).
  - intros [[[Harr bl] bw] f] E.
    destruct (fit2histogram_inv _ _ _ _ _ _ _ _ _ E)
      as (rng' & obs' & rest' & c' & e' & w & Hr' & HX & Hh' & Hw & _ & _).
    inversion HX; subst obs' rest'. rewrite Hr in Hr'.
    inversion Hr'; subst rng'. rewrite Hh in Hh'.
    inversion Hh'; subst c' e'.
    exists w. now apply asscalar_unique_ok.
Qed.

Section OuterEdges.

(** The contract of NumPy's histogram routine: it returns for a positive
    number of bins and an ordered range only, with the edges of bins of
    equal width between the outer edges of the range. *)
Hypothesis histogram_outer_edges :
  forall obs nbins rng counts edges,
    histogram obs nbins rng = Ok (counts, edges) ->
    (0 < nbins)%Z /\ fst rng <= snd rng /\
    edges = linspace (fst (outer_edges rng)) (snd (outer_edges rng))
              (Z.to_nat nbins).

(** The bin width returned is within 1e-6 of the width of the bins
    between the outer edges. *)
Lemma fit2histogram_width_outer (X : list (list R)) (fx : functor)
  (params : list R) (nbins : Z) (x_range : option (R * R)) (Harr : ndarray)
  (bl : list R) (bw : R) (f : fit) :
  fit2histogram X fx params nbins x_range = Ok (Harr, bl, bw, f) ->
  exists lo hi,
    default_range X x_range = Ok (lo, hi) /\
    (0 < nbins)%Z /\ lo <= hi /\
    Rabs (bw - (snd (outer_edges (lo, hi)) - fst (outer_edges (lo, hi)))
               / IZR nbins) <= 1 / 10 ^ 6.
Proof.
  intros E.
  destruct (fit2histogram_inv _ _ _ _ _ _ _ _ _ E)
    as ([lo hi] & obs & rest & c & e & w & Hr & _ & Hh & Hw & -> & _).
  exists lo, hi. split; [exact Hr|].
  destruct (histogram_outer_edges _ _ _ _ _ Hh) as (Hn & Hle & ->).
  cbn [fst snd] in Hle. split; [exact Hn|]. split; [exact Hle|].
  assert (Hab : fst (outer_edges (lo, hi)) <= snd (outer_edges (lo, hi))).
  { unfold outer_edges. cbn [fst snd].
    destruct (Req_dec_T lo hi); cbn [fst snd]; lra. }
  revert Hab Hw.
  generalize (fst (outer_edges (lo, hi))), (snd (outer_edges (lo, hi))).
  intros a b Hab Hw.
  assert (HN : INR (Z.to_nat nbins) = IZR nbins).
  { rewrite INR_IZR_INZ, Z2Nat.id by lia. reflexivity. }
  assert (Hpos : 0 < IZR nbins) by (apply IZR_lt; exact Hn).
  rewrite rounded_widths_linspace, HN in Hw.
  destruct (Z.to_nat nbins) as [|k] eqn:Hk.
  { simpl in HN. lra. }
  rewrite unique_repeat in Hw. simpl in Hw. inversion Hw; subst w. clear Hw.
  set (wd := (b - a) / IZR nbins).
  assert (Hwd : 0 <= wd).
  { unfold wd. apply Rmult_le_pos; [lra|]. left. now apply Rinv_0_lt_compat. }
  pose proof (np_round_error (- wd) 6) as Herr.
  pose proof (Rabs_triang_inv2 (np_round (- wd) 6) (- wd)) as Htri.
  rewrite (Rabs_left1 (- wd)) in Htri by lra.
  rewrite Ropp_involutive in Htri.
  assert (1 / 2 / 10 ^ 6 <= 1 / 10 ^ 6).
  { assert (0 < 10 ^ 6) by (apply pow_lt; lra).
    unfold Rdiv. rewrite Rmult_1_l.
    apply Rmult_le_compat_r; [left; now apply Rinv_0_lt_compat|lra]. }
  lra.
Qed.


End OuterEdges.

(** On a range with extent the outer edges are the range itself; the
    run lemmas below are about a routine that lays the edges of bins of
    equal width over the range given. *)
Hypothesis histogram_equal_width :
  forall obs nbins rng counts edges,
    histogram obs nbins rng = Ok (counts, edges) ->
    (0 < nbins)%Z /\ fst rng <= snd rng /\
    edges = linspace (fst rng) (snd rng) (Z.to_nat nbins).

(** And it does return: on a non-empty [X] whose rows the histogram
    routine accepts, once the solver returns. *)
Lemma foldM_returns (nbins : Z) (rng : R * R) (X : list (list R))
  (st : loop_state) (b : bins) :
  binning st = Some b ->
  (forall row, In row X -> exists c e, histogram row nbins rng = Ok (c, e)) ->
  exists st', foldM (loop_body nbins rng) st X = Ok st'.
Proof.
  revert st. induction X as [|obs X IH]; intros st Hb Hall; simpl.
  - now exists st.
  - destruct (Hall obs (or_introl eq_refl)) as (c & e & Hh).
    unfold Fx.loop_body at 1. rewrite Hh, Hb. simpl.
    apply IH; [reflexivity|]. intros row Hrow. apply Hall. now right.
Qed.

Lemma fit2histogram_returns (X : list (list R)) (fx : functor)
  (params : list R) (nbins : Z) (x_range : option (R * R)) (rng : R * R) :
  X <> [] ->
  default_range X x_range = Ok rng ->
  (forall row, In row X -> exists c e, histogram row nbins rng = Ok (c, e)) ->
  (forall e p, exists r, leastsq e p = Ok r) ->
  exists r, fit2histogram X fx params nbins x_range = Ok r.
Proof.
  intros HX Hr Hall Hsolve. destruct X as [|obs rest]; [now destruct HX|].
  destruct (Hall obs (or_introl eq_refl)) as (c & e & Hh).
  destruct (histogram_equal_width _ _ _ _ _ Hh) as (Hn & _ & He).
  unfold Fx.fit2histogram. rewrite Hr. simpl.
  rewrite (loop_body_first nbins rng (LoopState [] None) obs c e eq_refl Hh).
  rewrite He, rounded_widths_linspace.
  destruct (Z.to_nat nbins) as [|k] eqn:Hk; [lia|].
  rewrite unique_repeat. simpl.
  match goal with
  | |- context [foldM ?body ?s rest] =>
      destruct (foldM_returns nbins rng rest s _ eq_refl) as [st Hf]
  end.
  { intros row Hrow. apply Hall. now right. }
  rewrite Hf. simpl.
  pose proof (fun b Hb => foldM_keeps_bins _ _ _ _ _ b Hb Hf) as Hkeep.
  rewrite (Hkeep _ eq_refl). simpl.
  unfold least_sq_fit.
  match goal with
  | |- context [least_sq_fit_xy ?y ?x] => destruct (least_sq_fit_xy y x) as [x' y']
  end.
  destruct (Hsolve (efx fx [] x' y') params) as [r ->]. simpl.
  eexists. reflexivity.
Qed.

End WithRoutines.

(** A stand-in for the histogram routine that meets its contract. *)
Lemma equal_width_stand_in :
  let hist := fun (_ : list R) (nbins : Z) (rng : R * R) =>
    if (0 <? nbins)%Z then
      if Rle_dec (fst rng) (snd rng) then
        Ok (repeat 0 (Z.to_nat nbins),
            linspace (fst rng) (snd rng) (Z.to_nat nbins))
      else Raise ValueError
    else Raise ValueError in
  forall obs nbins rng counts edges,
    hist obs nbins rng = Ok (counts, edges) ->
    (0 < nbins)%Z /\ fst rng <= snd rng /\
    edges = linspace (fst rng) (snd rng) (Z.to_nat nbins).
Proof.
  intros hist obs nbins rng counts edges. unfold hist.
  destruct (Z.ltb_spec 0 nbins) as [Hn|_]; [|discriminate].
  destruct (Rle_dec (fst rng) (snd rng)) as [Hle|_]; [|discriminate].
  intros E. inversion E; subst. auto.
Qed.

Lemma fit2histogram_needs_one_width_witness :
  let solver := fun (_ : list R -> result ndarray) (p : list R) =>
                  Ok (p, 1%Z) in
  let hist := fun (_ : list R) (_ : Z) (_ : R * R) =>
                Ok ([1; 1], [0; 1; 3]) in
  let fx := fun (x : ndarray) (_ : list R) (_ : kwargs) => Ok x in
  fit2histogram solver hist [[0; 2]] fx [] 2 (Some (0, 3)) = Raise ValueError.
Proof.
  intros solver hist fx.
  refine (proj1 (fit2histogram_needs_one_width solver hist [[0; 2]] fx []
                   2 (Some (0, 3)) (0, 3) [0; 2] [] [1; 1] [0; 1; 3]
                   eq_refl eq_refl eq_refl) _).
  exists (np_round (0 - 1) 6), (np_round (1 - 3) 6).
  split; [now left|]. split; [right; now left|].
  pose proof (np_round_error (0 - 1) 6) as H1.
  pose proof (np_round_error (1 - 3) 6) as H2.
  apply Rabs_le_bounds in H1. apply Rabs_le_bounds in H2.
  simpl in H1, H2. lra.
Defined.

Lemma outer_edges_histogram_contract :
  forall obs nbins rng counts edges,
    outer_edges_histogram obs nbins rng = Ok (counts, edges) ->
    (0 < nbins)%Z /\ fst rng <= snd rng /\
    edges = linspace (fst (outer_edges rng)) (snd (outer_edges rng))
              (Z.to_nat nbins).
Proof.
  intros obs nbins rng counts edges. unfold outer_edges_histogram.
  destruct (Z.ltb_spec 0 nbins) as [Hn|_]; [|discriminate].
  destruct (Rle_dec (fst rng) (snd rng)) as [Hle|_]; [|discriminate].
  intros E. inversion E; subst. auto.
Qed.

(** Constant data under the default range: the run returns. *)
Lemma constant_data_range :
  default_range [[1; 1]] None = Ok (1, 1).
Proof.
  unfold default_range. cbn [concat app np_min np_max fold_left bind].
  now rewrite Rmin_left, Rmax_left by lra.
Qed.

Lemma constant_data_run :
  exists Harr bl bw f,
    fit2histogram returning_solver outer_edges_histogram [[1; 1]]
      identity_fx [] 1 None
    = Ok (Harr, bl, bw, f).
Proof.
  unfold fit2histogram. rewrite constant_data_range. cbn [bind foldM].
  unfold loop_body, outer_edges_histogram. cbn [Z.ltb Z.compare fst snd].
  destruct (Rle_dec 1 1) as [_|N]; [|exfalso; lra].
  cbn [bind binning snd fst Z.to_nat Pos.to_nat Pos.iter_op Nat.add].
  unfold linspace, rounded_widths.
  cbn [seq map removelast tl zip_with unique insert_unique asscalar bind
       binning H app bin_left bin_width bin_centers].
  unfold least_sq_fit, returning_solver.
  cbn [least_sq_fit_xy samples].
  do 4 eexists. reflexivity.
Qed.



End HistProps.

(** ** Properties of the rotation generator *)

Module RotationProps.
Import Py Rotation.
Import mathcomp.boot.boot mathcomp.order.order mathcomp.algebra.algebra.
Import GRing.Theory Num.Theory.
Local Open Scope ring_scope.

Set Implicit Arguments.
Unset Strict Implicit.
Unset Printing Implicit Defensive.

Section Arrays.

Variable F : realFieldType.
Implicit Types a : ndarray2 F.

Lemma max_nat (m n : nat) : Num.max (Posz m) (Posz n) = Posz (maxn m n).
Proof. by rewrite /Order.max /maxn ltz_nat; case: ifP. Qed.

(** A slice that reaches past the end is the array itself. *)
Lemma slice_whole a (n : nat) :
  (shape0 a <= n)%N -> (shape1 a <= n)%N ->
  cols_upto (rows_upto a (Posz n)) (Posz n) = a.
Proof.
  case: a => r c it /= Hr Hc.
  by rewrite /cols_upto /rows_upto /= (minn_idPr Hr) (minn_idPr Hc).
Qed.

Lemma det_square a (n : nat) :
  shape0 a = n -> shape1 a = n -> det a = Ok (\det (square n a)).
Proof. by move=> H0 H1; rewrite /det H0 H1 eqxx. Qed.

Lemma orthogonal_square a (n : nat) :
  shape0 a = n -> shape1 a = n -> rows_orthonormal a ->
  square n a *m (square n a)^T = 1%:M.
Proof.
  case: a => r c it /= Hr Hc; subst r c => Ho.
  apply/matrixP => i k; rewrite !mxE.
  under eq_bigr do rewrite !mxE.
  exact: Ho.
Qed.

(** A matrix with orthonormal rows has determinant 1 or -1. *)
Lemma det_orthogonal (n : nat) (M : 'M[F]_n) :
  M *m M^T = 1%:M -> (\det M == 1) || (\det M == -1).
Proof. by move=> H; rewrite -sqrf_eq1 expr2 -{2}det_tr -det_mulmx H det1. Qed.

Lemma negate_first_column_ok a :
  (0 < shape1 a)%N -> negate_first_column a = Ok (negated a).
Proof. by rewrite /negate_first_column lt0n => /negPf ->. Qed.

(** Negating the first column negates the determinant. *)
Lemma det_negated a (n : nat) :
  (0 < n)%N -> \det (square n (negated a)) = - \det (square n a).
Proof.
  case: n => [//|m] _.
  pose d : 'rV[F]_m.+1 := \row_j (if j == 0 :> nat then -1 else 1).
  have -> : square m.+1 (negated a) = square m.+1 a *m diag_mx d.
    rewrite mul_mx_diag; apply/matrixP => i j; rewrite !mxE /=.
    by case: ifP => _; rewrite ?mulr1.
  rewrite det_mulmx det_diag big_ord_recl mxE /= big1 ?mulr1 ?mulrN1 //.
  by move=> i _; rewrite mxE.
Qed.

(** It keeps the rows orthonormal. *)
Lemma rows_orthonormal_negated a :
  rows_orthonormal a -> rows_orthonormal (negated a).
Proof.
  move=> Ho i k; rewrite -(Ho i k) /=.
  apply: eq_bigr => j _.
  by case: ifP => _ //; rewrite !mulrN1 mulrNN.
Qed.

(** The square case, lines 275-279: from a candidate with orthonormal
    rows to a proper rotation. *)
Lemma square_case a (n : nat) :
  shape0 a = n -> shape1 a = n -> rows_orthonormal a ->
  exists dt,
    det a = Ok dt /\
    (dt < 0 -> negate_first_column a = Ok (negated a)) /\
    rows_orthonormal (if dt < 0 then negated a else a) /\
    det (if dt < 0 then negated a else a) = Ok 1.
Proof.
  move=> H0 H1 Ho; exists (\det (square n a)).
  have Hdet := det_orthogonal (orthogonal_square H0 H1 Ho).
  split; first exact: det_square.
  have Hn : \det (square n a) < 0 -> (0 < n)%N.
    case: (n) => [|//]; by rewrite det_mx00 ltr10.
  split.
    by move=> /Hn Hpos; rewrite negate_first_column_ok // H1.
  case: ifP => Hlt.
  - split; first exact: rows_orthonormal_negated.
    rewrite (@det_square _ n) //= det_negated ?Hn //.
    case/orP: Hdet Hlt => /eqP -> ; first by rewrite ltr10.
    by rewrite opprK.
  - split=> //; rewrite (det_square H0 H1).
    case/orP: Hdet Hlt => /eqP -> //.
    by rewrite ltrN10.
Qed.

(** Lines 275-279 return an array of the candidate's shape. *)
Lemma square_case_shape a (n : nat) :
  shape0 a = n -> shape1 a = n ->
  exists R,
    (dt <- det a ;; if dt < 0 then negate_first_column a else Ok a) = Ok R /\
    shape0 R = n /\ shape1 R = n.
Proof.
  move=> H0 H1; rewrite (det_square H0 H1) /=.
  case: ifP => Hlt; last by exists a.
  have Hpos : (0 < n)%N.
    by case: (n) Hlt => [|//]; rewrite det_mx00 ltr10.
  rewrite negate_first_column_ok; first by rewrite H1.
  by exists (negated a); split=> //; rewrite /= H0 H1.
Qed.

End Arrays.

Section WithSvd.

Variable F : realFieldType.
Variable svd_vh : ndarray2 F -> ndarray2 F.
Variable random_normal : nat -> nat -> ndarray2 F.

Notation get_random_rotation := (get_random_rotation svd_vh random_normal).

(** [vh] is square, of the size of the columns of its argument. *)
Hypothesis svd_shape :
  forall a, shape0 (svd_vh a) = shape1 a /\ shape1 (svd_vh a) = shape1 a.

(** Without [nt], the target dimension is [ns]; without [data], the
    draw of [10 * d] rows and [d] columns is the data. *)
Lemma get_random_rotation_default_nt (ns : int) data :
  get_random_rotation ns None data = get_random_rotation ns (Some ns) data.
Proof. by []. Qed.

Lemma get_random_rotation_default_data (ns nt : nat) :
  get_random_rotation (Posz ns) (Some (Posz nt)) None
  = get_random_rotation (Posz ns) (Some (Posz nt))
      (Some (random_normal (maxn ns nt * 10) (maxn ns nt))).
Proof. by rewrite /Rotation.get_random_rotation max_nat. Qed.

(** The shape that comes back: each dimension is cut at the number of
    columns of the data. *)
Lemma get_random_rotation_shape_of (ns nt : nat) a :
  exists R,
    get_random_rotation (Posz ns) (Some (Posz nt)) (Some a) = Ok R /\
    shape0 R = minn ns (shape1 a) /\ shape1 R = minn nt (shape1 a).
Proof.
  rewrite /Rotation.get_random_rotation max_nat /=.
  set V := svd_vh _; set C := cols_upto _ _.
  have [H0 H1] : shape0 C = minn ns (shape1 a) /\
                 shape1 C = minn nt (shape1 a).
    rewrite /C /V /=; case: (svd_shape (cols_upto a (Posz (maxn ns nt)))).
    move=> -> -> /=.
    by rewrite !minnA (minn_idPl (leq_maxl _ _)) (minn_idPl (leq_maxr _ _)).
  case: eqP => [[E]|_]; last by exists C.
  rewrite -E in H1.
  case: (square_case_shape H0 H1) => R [-> [HR0 HR1]].
  by exists R; rewrite -E.
Qed.

(** The draw has the shape asked for. *)
Hypothesis random_shape :
  forall r c,
    shape0 (random_normal r c) = r /\ shape1 (random_normal r c) = c.

(** C6, amended. For [ns >= 0] and [nt >= 0] ([nt] defaulting to [ns]),
    and for data that is left out or has at least [max(ns, nt)] columns,
    [get_random_rotation] returns a matrix of shape [(ns, nt)]. *)
Theorem get_random_rotation_shape (ns : nat) (nt : option nat)
  (data : option (ndarray2 F)) :
  (forall a, data = Some a -> (maxn ns (odflt ns nt) <= shape1 a)%N) ->
  exists R,
    get_random_rotation (Posz ns) (omap Posz nt) data = Ok R /\
    shape0 R = ns /\ shape1 R = odflt ns nt.
Proof.
  set nt' := odflt ns nt => Hcols.
  have -> : get_random_rotation (Posz ns) (omap Posz nt) data
            = get_random_rotation (Posz ns) (Some (Posz nt')) data.
    by rewrite /nt'; case: (nt).
  pose a := odflt (random_normal (maxn ns nt' * 10) (maxn ns nt')) data.
  have Ha : (maxn ns nt' <= shape1 a)%N.
    rewrite /a; case: (data) Hcols => [b|_] /=; first by apply.
    by case: (random_shape (maxn ns nt' * 10) (maxn ns nt')) => _ ->.
  have -> : get_random_rotation (Posz ns) (Some (Posz nt')) data
            = get_random_rotation (Posz ns) (Some (Posz nt')) (Some a).
    by rewrite /a; case: (data) => [b|] //; rewrite get_random_rotation_default_data.
  case: (get_random_rotation_shape_of ns nt' a) => R [-> [H0 H1]].
  exists R; split=> //; rewrite H0 H1; split; apply/minn_idPl.
  - exact: leq_trans (leq_maxl _ _) Ha.
  - exact: leq_trans (leq_maxr _ _) Ha.
Qed.

(** The rows of [vh] are orthonormal. *)
Hypothesis svd_orthonormal : forall a, rows_orthonormal (svd_vh a).

(** C7. When [ns == nt], the candidate [_vh[:ns, :nt]] has its first
    column negated exactly when its determinant is negative, and the
    matrix returned has orthonormal rows ([R @ R.T] is the identity) and
    determinant 1. *)
Theorem get_random_rotation_proper (n : nat) (nt : option nat)
  (data : option (ndarray2 F)) :
  odflt n nt = n ->
  let a := odflt (random_normal (n * 10) n) data in
  let C := cols_upto (rows_upto (svd_vh (cols_upto a (Posz n))) (Posz n))
             (Posz n) in
  exists dt R,
    det C = Ok dt /\
    (dt < 0 -> negate_first_column C = Ok R) /\
    (~~ (dt < 0) -> R = C) /\
    get_random_rotation (Posz n) (omap Posz nt) data = Ok R /\
    rows_orthonormal R /\
    det R = Ok 1.
Proof.
  move=> Hnt a C.
  have HC : C = svd_vh (cols_upto a (Posz n)).
    rewrite /C; apply: slice_whole.
    - by case: (svd_shape (cols_upto a (Posz n))) => -> _; exact: geq_minl.
    - by case: (svd_shape (cols_upto a (Posz n))) => _ ->; exact: geq_minl.
  have [H0 H1] := svd_shape (cols_upto a (Posz n)).
  rewrite -HC in H0 H1.
  have Ho : rows_orthonormal C by rewrite HC.
  case: (square_case H0 H1 Ho) => dt [Hdet [Hneg [HoR HdR]]].
  exists dt, (if dt < 0 then negated C else C).
  split=> //; split; first by move=> Hlt; rewrite Hlt; exact: Hneg.
  split; first by move=> /negPf ->.
  split; last by [].
  have -> : get_random_rotation (Posz n) (omap Posz nt) data
            = get_random_rotation (Posz n) (Some (Posz n)) (Some a).
    have -> : get_random_rotation (Posz n) (omap Posz nt) data
              = get_random_rotation (Posz n) (Some (Posz n)) data.
      by case: (nt) Hnt => [m /= ->|_].
    rewrite /a; case: (data) => [b|] //=.
    by rewrite get_random_rotation_default_data maxnn.
  rewrite /Rotation.get_random_rotation max_nat maxnn /= eqxx -/C Hdet /=.
  by case: ifP => // /Hneg.
Qed.

End WithSvd.

(** *** Stand-ins for the external routines, on the rationals *)

(** The identity of the right size has the shape, and the orthonormal
    rows, of a [vh]. *)
Lemma identity_shape (a : ndarray2 rat) :
  let vh := Nd2 (shape1 a) (shape1 a) (fun i j => (i == j)%:R : rat) in
  shape0 vh = shape1 a /\ shape1 vh = shape1 a.
Proof. by []. Qed.

Lemma identity_rows_orthonormal (a : ndarray2 rat) :
  rows_orthonormal (Nd2 (shape1 a) (shape1 a) (fun i j => (i == j)%:R : rat)).
Proof.
  move=> i k /=.
  rewrite (bigD1 i) //= eqxx mul1r big1 ?addr0; last by rewrite [in RHS]eq_sym.
  move=> j; rewrite -val_eqE /= eq_sym => /negPf ->.
  by rewrite mul0r.
Qed.

Lemma zeros_shape (r c : nat) :
  let z : ndarray2 rat := Nd2 r c (fun _ _ => 0) in
  shape0 z = r /\ shape1 z = c.
Proof. by []. Qed.

(** C6, as stated, fails: data with fewer than [max(ns, nt)] columns
    gives a smaller matrix, here [(2, 2)] where [(3, 3)] is asked for. *)
Lemma get_random_rotation_shape_refuted :
  ~ (forall (F : realFieldType) (svd_vh : ndarray2 F -> ndarray2 F)
       (random_normal : nat -> nat -> ndarray2 F),
       (forall a, shape0 (svd_vh a) = shape1 a /\
                  shape1 (svd_vh a) = shape1 a) ->
       (forall r c, shape0 (random_normal r c) = r /\
                    shape1 (random_normal r c) = c) ->
       forall (ns nt : nat) (data : option (ndarray2 F)),
       exists R,
         get_random_rotation svd_vh random_normal (Posz ns)
           (Some (Posz nt)) data = Ok R /\
         shape0 R = ns /\ shape1 R = nt).
Proof.
  move=> Hclaim.
  pose svd (a : ndarray2 rat) : ndarray2 rat :=
    Nd2 (shape1 a) (shape1 a) (fun i j => (i == j)%:R : rat).
  pose rnd (r c : nat) : ndarray2 rat := Nd2 r c (fun _ _ => 0).
  pose data : ndarray2 rat := Nd2 1 2 (fun _ _ => 0).
  case: (Hclaim rat svd rnd identity_shape zeros_shape 3%N 3%N (Some data)).
  move=> R [E [H0 _]].
  case: (get_random_rotation_shape_of rnd identity_shape 3 3 data).
  move=> R' [E' [H0' _]].
  by move: E'; rewrite E => -[HR]; move: H0'; rewrite -HR H0.
Qed.

Lemma get_random_rotation_shape_witness :
  let svd := fun a : ndarray2 rat =>
               Nd2 (shape1 a) (shape1 a) (fun i j => (i == j)%:R : rat) in
  let rnd := fun r c : nat => Nd2 r c (fun _ _ => 0 : rat) in
  let data := Nd2 40 6 (fun i j => (i + j)%:R : rat) in
  exists R,
    get_random_rotation svd rnd (Posz 5) (Some (Posz 2)) (Some data) = Ok R /\
    shape0 R = 5%N /\ shape1 R = 2%N.
Proof.
  move=> svd rnd data.
  apply: (@get_random_rotation_shape rat svd rnd identity_shape zeros_shape
            5 (Some 2%N) (Some data)).
  by move=> a [<-].
Defined.

Lemma get_random_rotation_proper_witness :
  let svd := fun a : ndarray2 rat =>
               Nd2 (shape1 a) (shape1 a) (fun i j => (i == j)%:R : rat) in
  let rnd := fun r c : nat => Nd2 r c (fun _ _ => 0 : rat) in
  exists R,
    get_random_rotation svd rnd (Posz 3) None None = Ok R /\
    rows_orthonormal R /\ det R = Ok 1.
Proof.
  move=> svd rnd.
  case: (@get_random_rotation_proper rat svd rnd identity_shape
           identity_rows_orthonormal 3 None None erefl).
  move=> dt [R [_ [_ [_ [E [Ho Hd]]]]]].
  by exists R.
Defined.

End RotationProps.

(** ** Further properties of the curve models *)

Module FxExtra.
Import Py Fx FxProps.
Local Open Scope R_scope.

(** *** Division by zero *)

(** A power within the range has a value, flushed where it underflows. *)
Lemma float_pow_flush (x : R) (n : nat) :
  Rabs (x ^ n) <= fl_max -> float_pow x n = Ok (Fnum (flush (x ^ n))).
Proof.
  intros H. unfold float_pow.
  destruct (Rlt_dec fl_max (Rabs (x ^ n))) as [L|_]; [lra|].
  now rewrite fl_flush.
Qed.

Lemma square_le (x : R) : Rabs x <= 10 ^ 150 -> Rabs (x ^ 2) <= fl_max.
Proof.
  intros H. replace (x ^ 2) with (x * x) by ring.
  pose proof (Rabs_mult_le _ _ _ _ H H). pose proof fl_max_big. lra.
Qed.

(** [W ** 2] underflows to zero for a [W] up to 1e-170 in size. *)
Lemma square_underflow (x : R) :
  Rabs x <= / 10 ^ 170 -> flush (x ^ 2) = 0.
Proof.
  intros H. replace (x ^ 2) with (x * x) by ring.
  pose proof (Rabs_mult_le _ _ _ _ H H) as H2.
  unfold flush. destruct (Rle_dec (Rabs (x * x)) fl_tiny) as [_|N];
    [reflexivity|].
  exfalso. apply N. unfold fl_tiny.
  assert (/ 10 ^ 170 * / 10 ^ 170 <= / 2 ^ 1075) by lra. lra.
Qed.

(** [(A ** 2) / (W ** 2)] raises when [W ** 2] is zero. *)
Lemma hrf_power_underflow (A W : R) :
  Rabs A <= 10 ^ 150 -> Rabs W <= / 10 ^ 170 ->
  hrf_power A W = Raise ZeroDivisionError.
Proof.
  intros HA HW. unfold hrf_power.
  assert (Rabs W <= 10 ^ 150) as HW' by lra.
  rewrite (float_pow_flush A 2 (square_le A HA)).
  rewrite (float_pow_flush W 2 (square_le W HW')).
  rewrite (square_underflow W HW). cbn [bind].
  now rewrite py_div_zero.
Qed.

(** For [A = 0] the exponent of [0j] is zero, if the division
    returns. *)
Lemma hrf_power_zero_A (W : R) :
  Rabs W <= 10 ^ 150 ->
  hrf_power 0 W = Raise ZeroDivisionError \/
  hrf_power 0 W = Ok (Cx (Fnum 1) (Fnum 0)).
Proof.
  intros HW. unfold hrf_power.
  assert (Rabs 0 <= 10 ^ 150) as H0 by (rewrite Rabs_R0; lra).
  rewrite (float_pow_flush 0 2 (square_le 0 H0)).
  rewrite (float_pow_flush W 2 (square_le W HW)).
  replace (0 ^ 2) with 0 by ring. rewrite flush_0. cbn [bind].
  destruct (Req_dec_T (flush (W ^ 2)) 0) as [->|N].
  - left. now rewrite py_div_zero.
  - right. rewrite py_div_num by exact N.
    replace (0 / flush (W ^ 2)) with 0 by (unfold Rdiv; ring).
    rewrite fl_0. cbn [bind]. rewrite fmul_0_l, fmul_0_l.
    exact c_pow_0j_0.
Qed.

(** [(W + 0j ** 2) / A] raises for [A = 0]. *)
Lemma hrf_scale_zero_A (W : R) : hrf_scale 0 W = Raise ZeroDivisionError.
Proof.
  unfold hrf_scale. rewrite c_pow_0j_pos by lra. cbn [bind].
  now rewrite c_quot_zero.
Qed.

Lemma hrf_res_zero_division (t : nd R) (A W K : R) :
  A = 0 \/ Rabs W <= / 10 ^ 170 ->
  Rabs A <= 10 ^ 150 -> Rabs W <= 10 ^ 150 ->
  match t with
  | Scalar x => hrf_res_scalar x A W K = Raise ZeroDivisionError
  | Array xs => hrf_res_array xs A W K = Raise ZeroDivisionError
  end.
Proof.
  intros H HA HW. destruct t as [x|xs].
  - unfold hrf_res_scalar.
    destruct (Req_dec_T A 0) as [->|N]; [now rewrite py_div_zero|].
    destruct H as [E|H]; [contradiction|].
    rewrite py_div_num by exact N. cbn [bind].
    now rewrite hrf_power_underflow.
  - unfold hrf_res_array. destruct H as [->|H].
    + destruct (hrf_power_zero_A W HW) as [-> | ->]; [reflexivity|].
      cbn [bind]. now rewrite hrf_scale_zero_A.
    + now rewrite hrf_power_underflow.
Qed.



(** *** Overflow *)



(** *** The value *)

(** X3. For [A] and [W] between 1e-70 and 1e70 in size, of either
    sign, and [t] and [K] zero or of a size in that range, with the
    exponential factor within the range of a double, the value is
    [K * t / A] entry by entry; the width [W] has no effect on it. *)
Theorem single_gamma_hrf_ignores_width (t : nd R) (A W W' K : pyval) :
  moderate (float A) -> moderate (float W) -> moderate (float W') ->
  in_range (float K) ->
  nd_forall (fun ti => in_range ti /\
                       (float A - ti) * float A * 8 / float W <= 1023 /\
                       (float A - ti) * float A * 8 / float W' <= 1023) t ->
  single_gamma_hrf t A W K
  = Ok (nd_map (fun ti => Fnum (float K * ti / float A)) t) /\
  single_gamma_hrf t A W K = single_gamma_hrf t A W' K.
Proof.
  intros HA HW HW' HK Ht.
  rewrite !single_gamma_hrf_value; try assumption.
  - split; reflexivity.
  - eapply nd_forall_impl; [|exact Ht]. intros ti (Hi & _ & Hy).
    split; assumption.
  - eapply nd_forall_impl; [|exact Ht]. intros ti (Hi & Hy & _).
    split; assumption.
Qed.

Lemma moderate_neg_5 : moderate (-5).
Proof.
  unfold moderate, within, Rabs. destruct (Rcase_abs (-5)); lra.
Qed.

Lemma single_gamma_hrf_ignores_width_witness :
  single_gamma_hrf (Array [0; 2]) (PyFloat (-5)) (PyFloat 5.2) (PyInt 1)
  = Ok (nd_map (fun ti => Fnum (1 * ti / -5)) (Array [0; 2])) /\
  single_gamma_hrf (Array [0; 2]) (PyFloat (-5)) (PyFloat 5.2) (PyInt 1)
  = single_gamma_hrf (Array [0; 2]) (PyFloat (-5)) (PyFloat 7.35) (PyInt 1).
Proof.
  apply (single_gamma_hrf_ignores_width (Array [0; 2]) (PyFloat (-5))
           (PyFloat 5.2) (PyFloat 7.35) (PyInt 1)); cbn [float nd_forall].
  - exact moderate_neg_5.
  - apply moderate_of_pos. lra.
  - apply moderate_of_pos. lra.
  - right. apply moderate_of_pos. lra.
  - constructor; [|constructor; [|constructor]].
    + split; [now left|split; lra].
    + split; [right; apply moderate_of_pos; lra|split; lra].
Defined.

Lemma nd_sub_map (f g : R -> xfloat) (x : nd R) :
  nd_sub (nd_map f x) (nd_map g x)
  = Ok (nd_map (fun xi => fsub (f xi) (g xi)) x).
Proof.
  destruct x as [x|xs]; cbn [nd_map nd_sub nd_zip]; [reflexivity|].
  unfold broadcast. rewrite !length_map, Nat.eqb_refl. cbn [bind].
  now rewrite zip_with_map.
Qed.

(** X4. Under the conditions of X3 on both parameter sets,
    [double_gamma_hrf] is the float difference of [K1 * t / A1] and
    [K2 * t / A2] entry by entry: a result of the shape of [t], with no
    broadcasting error. *)
Theorem double_gamma_hrf_closed_form (t : nd R)
  (A1 W1 K1 A2 W2 K2 : pyval) :
  moderate (float A1) -> moderate (float W1) -> in_range (float K1) ->
  moderate (float A2) -> moderate (float W2) -> in_range (float K2) ->
  nd_forall (fun ti => in_range ti /\
                       (float A1 - ti) * float A1 * 8 / float W1 <= 1023 /\
                       (float A2 - ti) * float A2 * 8 / float W2 <= 1023) t ->
  double_gamma_hrf t A1 W1 K1 A2 W2 K2
  = Ok (nd_map (fun ti => fl (float K1 * ti / float A1
                              - float K2 * ti / float A2)) t).
Proof.
  intros HA1 HW1 HK1 HA2 HW2 HK2 Ht. unfold double_gamma_hrf.
  rewrite !single_gamma_hrf_float.
  rewrite (single_gamma_hrf_value t A1 W1 K1); try assumption.
  2:{ eapply nd_forall_impl; [|exact Ht]. intros ti (Hi & Hy & _).
      split; assumption. }
  rewrite (single_gamma_hrf_value t A2 W2 K2); try assumption.
  2:{ eapply nd_forall_impl; [|exact Ht]. intros ti (Hi & _ & Hy).
      split; assumption. }
  cbn [bind]. apply nd_sub_map.
Qed.

Lemma double_gamma_hrf_closed_form_witness :
  double_gamma_hrf (Scalar 2) (PyFloat 5.4) (PyFloat 5.2) (PyInt 1)
    (PyFloat 10.8) (PyFloat 7.35) (PyFloat 0.35)
  = Ok (Scalar (fl (1 * 2 / 5.4 - 0.35 * 2 / 10.8))).
Proof.
  apply (double_gamma_hrf_closed_form (Scalar 2) (PyFloat 5.4) (PyFloat 5.2)
           (PyInt 1) (PyFloat 10.8) (PyFloat 7.35) (PyFloat 0.35));
    cbn [float nd_forall];
    try (apply moderate_of_pos; lra);
    try (right; apply moderate_of_pos; lra).
  split; [right; apply moderate_of_pos; lra|split; lra].
Defined.

End FxExtra.

(** ** Further properties of the Gaussian mixtures *)

Module GaussExtra.
Import Py Fx FxProps FxExtra.
Local Open Scope R_scope.

Lemma nd_forall_map (P : R -> Prop) (f : R -> R) (x : nd R) :
  (forall xi, P (f xi)) -> nd_forall P (nd_map f x).
Proof.
  intros Hf. destruct x as [x|xs]; simpl; [apply Hf|].
  induction xs as [|y ys IH]; simpl; constructor; [apply Hf|exact IH].
Qed.

(** X5. [dual_positive_gaussian] returns the NaN sentinel exactly when
    an amplitude is negative or a standard deviation is not positive. *)
Theorem dual_positive_gaussian_nan_iff (x : nd R)
  (amp1 mean1 std1 amp2 mean2 std2 : R) :
  dual_positive_gaussian x amp1 mean1 std1 amp2 mean2 std2 = Ok NaN
  <-> amp1 < 0 \/ amp2 < 0 \/ std1 <= 0 \/ std2 <= 0.
Proof.
  destruct (Rlt_dec amp1 0) as [L1|N1].
  { rewrite dual_positive_gaussian_negative by now left. intuition. }
  destruct (Rlt_dec amp2 0) as [L2|N2].
  { rewrite dual_positive_gaussian_negative by now right. intuition. }
  rewrite dual_positive_gaussian_nonneg by lra.
  destruct (Rle_dec std1 0) as [S1|S1].
  { rewrite dual_gaussian_invalid by now left. intuition. }
  destruct (Rle_dec std2 0) as [S2|S2].
  { rewrite dual_gaussian_invalid by now right. intuition. }
  rewrite dual_gaussian_valid by lra.
  split; [discriminate|]. intros H. exfalso. lra.
Qed.

Lemma dual_positive_gaussian_nan_iff_witness :
  dual_positive_gaussian (Array [0; 1]) 1 0 1 2 0 0 = Ok NaN.
Proof.
  apply (proj2 (dual_positive_gaussian_nan_iff (Array [0; 1]) 1 0 1 2 0 0)).
  right; right; right. lra.
Defined.

(** X6. Whenever [dual_positive_gaussian] returns numbers, none of them
    is negative. *)
Theorem dual_positive_gaussian_nonnegative (x : nd R)
  (amp1 mean1 std1 amp2 mean2 std2 : R) (v : nd R) :
  dual_positive_gaussian x amp1 mean1 std1 amp2 mean2 std2 = Ok (Num v) ->
  nd_forall (fun y => 0 <= y) v.
Proof.
  destruct (Rlt_dec amp1 0) as [L1|N1].
  { rewrite dual_positive_gaussian_negative by now left. discriminate. }
  destruct (Rlt_dec amp2 0) as [L2|N2].
  { rewrite dual_positive_gaussian_negative by now right. discriminate. }
  rewrite dual_positive_gaussian_nonneg by lra.
  destruct (Rle_dec std1 0) as [S1|S1].
  { rewrite dual_gaussian_invalid by now left. discriminate. }
  destruct (Rle_dec std2 0) as [S2|S2].
  { rewrite dual_gaussian_invalid by now right. discriminate. }
  rewrite dual_gaussian_valid by lra.
  intros E. inversion E; subst v. clear E.
  apply nd_forall_map. intros xi.
  pose proof (norm_pdf_pos xi mean1 std1). pose proof (norm_pdf_pos xi mean2 std2).
  assert (0 <= amp1 * norm_pdf xi mean1 std1) by (apply Rmult_le_pos; lra).
  assert (0 <= amp2 * norm_pdf xi mean2 std2) by (apply Rmult_le_pos; lra).
  lra.
Qed.

Lemma dual_positive_gaussian_nonnegative_witness :
  nd_forall (fun y => 0 <= y)
    (Array (map (fun xi => 2 * norm_pdf xi 0 1 + 0 * norm_pdf xi 3 1)
              [0; 1])).
Proof.
  apply (dual_positive_gaussian_nonnegative (Array [0; 1]) 2 0 1 0 3 1).
  rewrite dual_positive_gaussian_nonneg by lra.
  rewrite dual_gaussian_valid by lra. reflexivity.
Defined.

(** X7. The two components of [dual_gaussian] can be exchanged. *)
Theorem dual_gaussian_symmetric (x : nd R)
  (amp1 mean1 std1 amp2 mean2 std2 : R) :
  dual_gaussian x amp1 mean1 std1 amp2 mean2 std2
  = dual_gaussian x amp2 mean2 std2 amp1 mean1 std1.
Proof.
  destruct (Rle_dec std1 0) as [S1|S1].
  { rewrite !dual_gaussian_invalid by auto. reflexivity. }
  destruct (Rle_dec std2 0) as [S2|S2].
  { rewrite !dual_gaussian_invalid by auto. reflexivity. }
  rewrite !dual_gaussian_valid by lra. do 2 f_equal.
  destruct x as [x|xs]; simpl; f_equal.
  - ring.
  - apply map_ext. intros xi. ring.
Qed.

End GaussExtra.

(** ** Further properties of the least-squares adapter *)

Module FitExtra.
Import Py Fx FitProps.
Local Open Scope R_scope.

Lemma length_arange (n : nat) : length (arange n) = n.
Proof. unfold arange. now rewrite length_map, length_seq. Qed.

Lemma nth_arange (n j : nat) : (j < n)%nat -> nth j (arange n) 0 = INR j.
Proof.
  intros Hj. unfold arange. change 0 with (INR 0).
  rewrite map_nth, seq_nth by exact Hj. reflexivity.
Qed.

Lemma length_zip_with {T U V : Type} (f : T -> U -> V) (xs : list T)
  (ys : list U) :
  length xs = length ys -> length (zip_with f xs ys) = length xs.
Proof.
  revert ys. induction xs as [|x xs IH]; intros [|y ys] E; simpl in *;
    try discriminate; [reflexivity|]. f_equal. apply IH. now inversion E.
Qed.

Lemma nth_zip_with_minus (xs ys : list R) (k : nat) :
  length xs = length ys ->
  nth k (zip_with Rminus xs ys) 0 = nth k xs 0 - nth k ys 0.
Proof.
  revert ys k. induction xs as [|x xs IH]; intros [|y ys] k E; simpl in *;
    try discriminate.
  - destruct k; ring.
  - destruct k as [|k]; [reflexivity|]. apply IH. now inversion E.
Qed.

Section WithSolver.

Variable leastsq : (list R -> result ndarray) -> list R -> result fit.

(** X8. Without [x], the column index stands in for it: for a [y] of at
    least two rows the error function pairs [y[i][j]] with the number
    [j], and for a one-dimensional [y] entry [j] with [j]. *)
Theorem least_sq_fit_default_x (fx : functor) (params : list R)
  (kw : kwargs) (m : nat) (rows : list (list R)) :
  (2 <= length rows)%nat ->
  let n := length rows in
  let x_flat := concat (repeat (arange m) n) in
  least_sq_fit leastsq fx params (Arr2 m rows) None kw
  = leastsq (fun p => f <- fx (Arr1 x_flat) p kw ;;
                      ndarray_sub (Arr1 (concat rows)) f) params /\
  (forall i j : nat, (i < n)%nat -> (j < m)%nat ->
     nth (i * m + j) x_flat 0 = INR j) /\
  (forall l : list R,
     least_sq_fit leastsq fx params (Arr1 l) None kw
     = leastsq (fun p => f <- fx (Arr1 (arange (length l))) p kw ;;
                         ndarray_sub (Arr1 l) f) params).
Proof.
  intros Hn n x_flat. split; [|split].
  - unfold least_sq_fit, least_sq_fit_xy. simpl.
    destruct (Nat.ltb_spec 1 (length rows)) as [_|L]; [reflexivity|lia].
  - intros i j Hi Hj. unfold x_flat.
    rewrite (nth_concat_uniform m).
    + rewrite nth_repeat_lt by exact Hi. now apply nth_arange.
    + apply Forall_repeat. apply length_arange.
    + now rewrite repeat_length.
    + exact Hj.
  - intros l. reflexivity.
Qed.

End WithSolver.

Lemma least_sq_fit_default_x_witness :
  let solver := fun (_ : list R -> result ndarray) (p : list R) =>
                  Ok (p, 1%Z) in
  let fx := fun (x : ndarray) (_ : list R) (_ : kwargs) => Ok x in
  least_sq_fit solver fx [] (Arr2 3 [[1; 2; 3]; [4; 5; 6]]) None []
  = solver (fun p => f <- fx (Arr1 (concat (repeat (arange 3) 2))) p [] ;;
                     ndarray_sub (Arr1 (concat [[1; 2; 3]; [4; 5; 6]])) f)
      [] /\
  nth (1 * 3 + 2) (concat (repeat (arange 3) 2)) 0 = INR 2.
Proof.
  intros solver fx.
  destruct (least_sq_fit_default_x solver fx [] [] 3
              [[1; 2; 3]; [4; 5; 6]]) as (E & Hx & _).
  - simpl; lia.
  - split; [exact E|]. apply Hx; simpl; lia.
Defined.

(** X9. The error function returns one residual per observation,
    [y[k] - f[k]], when the fitted function returns as many values as
    there are observations; a different number (not 1, and more than
    one observation) raises ValueError. *)
Theorem efx_residuals (fx : functor) (kw : kwargs) (x : ndarray)
  (y f p : list R) :
  fx x p kw = Ok (Arr1 f) ->
  (length f = length y ->
   exists err,
     efx fx kw x (Arr1 y) p = Ok (Arr1 err) /\
     length err = length y /\
     forall k : nat, nth k err 0 = nth k y 0 - nth k f 0) /\
  (length f <> length y -> length f <> 1%nat -> length y <> 1%nat ->
   efx fx kw x (Arr1 y) p = Raise ValueError).
Proof.
  intros Hfx. unfold efx. rewrite Hfx. simpl.
  unfold ndarray_sub. simpl. unfold broadcast_dim. split.
  - intros E. rewrite E, Nat.eqb_refl. simpl.
    unfold broadcast_rows. simpl. unfold broadcast.
    rewrite E, Nat.eqb_refl. simpl.
    exists (zip_with Rminus y f). rewrite app_nil_r.
    split; [reflexivity|]. split.
    + apply length_zip_with. now symmetry.
    + intros k. apply nth_zip_with_minus. now symmetry.
  - intros Hne Hf1 Hy1.
    destruct (Nat.eqb_spec (length y) (length f)) as [E|_];
      [now destruct Hne|].
    destruct (Nat.eqb_spec (length y) 1) as [E|_]; [contradiction|].
    destruct (Nat.eqb_spec (length f) 1) as [E|_]; [contradiction|].
    reflexivity.
Qed.

Lemma efx_residuals_witness :
  let fx := fun (x : ndarray) (_ : list R) (_ : kwargs) => Ok x in
  exists err,
    efx fx [] (Arr1 [0; 1]) (Arr1 [5; 7]) [] = Ok (Arr1 err) /\
    length err = 2%nat /\
    forall k : nat, nth k err 0 = nth k [5; 7] 0 - nth k [0; 1] 0.
Proof.
  intros fx.
  apply (proj1 (efx_residuals fx [] (Arr1 [0; 1]) [5; 7] [0; 1] []
                  eq_refl)).
  reflexivity.
Defined.

End FitExtra.

(** ** Further properties of the histogram pipeline *)

Module HistExtra.
Import Py Fx FitProps HistProps.
Local Open Scope R_scope.

Lemma removelast_linspace (lo hi : R) (n : nat) :
  removelast (linspace lo hi n)
  = map (fun i => lo + INR i * ((hi - lo) / INR n)) (seq 0 n).
Proof.
  unfold linspace. rewrite seq_S, map_app. simpl. apply removelast_last.
Qed.

Section WithRoutines.

Variable leastsq : (list R -> result ndarray) -> list R -> result fit.
Variable histogram : list R -> Z -> R * R -> result (list R * list R).

Notation loop_body := (loop_body histogram).
Notation fit2histogram := (fit2histogram leastsq histogram).

(** The histogram of a row: its counts, whatever the edges. *)
Definition counts_of (nbins : Z) (rng : R * R) (row counts : list R) : Prop :=
  exists edges, histogram row nbins rng = Ok (counts, edges).

Lemma loop_body_inv (nbins : Z) (rng : R * R) (st st' : loop_state)
  (obs : list R) :
  loop_body nbins rng st obs = Ok st' ->
  exists counts b,
    counts_of nbins rng obs counts /\
    st' = LoopState (H st ++ [counts]) (Some b).
Proof.
  unfold Fx.loop_body, counts_of.
  destruct (histogram obs nbins rng) as [[c e]|err]; simpl; [|discriminate].
  destruct (binning st) as [b|]; simpl.
  - intros E. inversion E. eauto.
  - destruct (asscalar (unique (rounded_widths e))) as [w|err]; simpl;
      [|discriminate].
    intros E. inversion E. eauto.
Qed.

(** The loop appends the counts of each row, in order. *)
Lemma foldM_counts (nbins : Z) (rng : R * R) (X : list (list R))
  (st st' : loop_state) :
  foldM (loop_body nbins rng) st X = Ok st' ->
  exists cs, H st' = H st ++ cs /\ Forall2 (counts_of nbins rng) X cs.
Proof.
  revert st. induction X as [|obs X IH]; intros st; simpl.
  - intros E. inversion E. exists []. rewrite app_nil_r.
    split; [reflexivity|constructor].
  - destruct (loop_body nbins rng st obs) as [s1|err] eqn:Hb; simpl;
      [|discriminate].
    intros E.
    destruct (loop_body_inv _ _ _ _ _ Hb) as (c & b & Hc & ->).
    destruct (IH _ E) as (cs & HH & HF). simpl in HH.
    exists (c :: cs). rewrite HH, <- app_assoc.
    split; [reflexivity|now constructor].
Qed.

(** All that a normal return tells. *)
Lemma fit2histogram_inv_full (X : list (list R)) (fx : functor)
  (params : list R) (nbins : Z) (x_range : option (R * R)) (Harr : ndarray)
  (bl : list R) (bw : R) (f : fit) :
  fit2histogram X fx params nbins x_range = Ok (Harr, bl, bw, f) ->
  exists rng cs edges w,
    default_range X x_range = Ok rng /\
    Forall2 (counts_of nbins rng) X cs /\
    histogram (hd [] X) nbins rng = Ok (hd [] cs, edges) /\
    asscalar (unique (rounded_widths edges)) = Ok w /\
    Harr = match cs with
           | [c] => Arr1 c
           | [] => Arr1 []
           | c :: _ => Arr2 (length c) cs
           end /\
    bl = removelast edges /\
    bw = Rabs w /\
    least_sq_fit leastsq fx params Harr
      (Some (Arr1 (map (fun l => l + bw / 2) bl))) [] = Ok f.
Proof.
  unfold Fx.fit2histogram.
  destruct (default_range X x_range) as [rng|e]; simpl; [|discriminate].
  destruct X as [|obs rest]; simpl; [discriminate|].
  destruct (histogram obs nbins rng) as [[counts edges]|e] eqn:Hh.
  2:{ unfold Fx.loop_body. rewrite Hh. simpl. discriminate. }
  rewrite (loop_body_first histogram nbins rng (LoopState [] None)
             obs counts edges eq_refl Hh).
  destruct (asscalar (unique (rounded_widths edges))) as [w|e] eqn:Hw;
    simpl; [|discriminate].
  match goal with
  | |- context [foldM ?body ?s rest] =>
      destruct (foldM body s rest) as [st|e] eqn:Hf
  end; simpl; [|discriminate].
  pose proof (fun b Hb =>
                foldM_keeps_bins histogram _ _ _ _ _ b Hb Hf)
    as Hkeep.
  rewrite (Hkeep _ eq_refl). simpl.
  destruct (foldM_counts _ _ _ _ _ Hf) as (cs & HH & HF). simpl in HH.
  rewrite HH.
  match goal with
  | |- context [least_sq_fit ?a ?b ?c ?d ?e ?g] =>
      destruct (least_sq_fit a b c d e g) as [r|e'] eqn:Hfit
  end; simpl; [|discriminate].
  intros E. inversion E; subst. clear E.
  exists rng, (counts :: cs), edges, w. simpl.
  repeat split; try assumption; try reflexivity.
  constructor; [now exists edges|exact HF].
Qed.

(** X10. Without a row, [fit2histogram] fails: with a range given,
    [bin_width] was never assigned (UnboundLocalError); without one, and
    also when all rows are empty, the minimum of no entries raises
    ValueError. *)
Theorem fit2histogram_without_entries (X : list (list R)) (fx : functor)
  (params : list R) (nbins : Z) :
  (concat X = [] ->
   fit2histogram X fx params nbins None = Raise ValueError) /\
  (forall r : R * R,
     fit2histogram [] fx params nbins (Some r) = Raise UnboundLocalError).
Proof.
  split.
  - intros E. unfold Fx.fit2histogram, default_range. rewrite E. reflexivity.
  - intros r. reflexivity.
Qed.

(** X11. On return, [H] holds the counts of each row of [X], in order:
    a one-dimensional array for a single row, else a two-dimensional
    one with a row per row of [X]. *)
Theorem fit2histogram_counts (X : list (list R)) (fx : functor)
  (params : list R) (nbins : Z) (x_range : option (R * R)) (Harr : ndarray)
  (bl : list R) (bw : R) (f : fit) :
  fit2histogram X fx params nbins x_range = Ok (Harr, bl, bw, f) ->
  exists rng cs,
    default_range X x_range = Ok rng /\
    X <> [] /\
    Forall2 (counts_of nbins rng) X cs /\
    Harr = match cs with
           | [c] => Arr1 c
           | _ => Arr2 (length (hd [] cs)) cs
           end.
Proof.
  intros E.
  destruct (fit2histogram_inv_full _ _ _ _ _ _ _ _ _ E)
    as (rng & cs & edges & w & Hr & HF & Hh & _ & HH & _).
  destruct (fit2histogram_inv leastsq histogram _ _ _ _ _ _ _ _ _ E)
    as (_ & obs & rest & _ & _ & _ & _ & HX & _).
  exists rng, cs. split; [exact Hr|]. split; [now rewrite HX|].
  split; [exact HF|].
  destruct cs as [|c [|c' cs]]; try exact HH.
  rewrite HX in HF. inversion HF.
Qed.

(** X12. On return, [bin_left] is the first row's edges without the
    last, [bin_width] is not negative, and the fit is what
    [least_sq_fit] returns for [H] over the bin centres
    [bin_left + bin_width / 2]. *)
Theorem fit2histogram_fit_over_centres (X : list (list R)) (fx : functor)
  (params : list R) (nbins : Z) (x_range : option (R * R)) (Harr : ndarray)
  (bl : list R) (bw : R) (f : fit) :
  fit2histogram X fx params nbins x_range = Ok (Harr, bl, bw, f) ->
  (exists rng counts edges,
     default_range X x_range = Ok rng /\
     histogram (hd [] X) nbins rng = Ok (counts, edges) /\
     bl = removelast edges) /\
  0 <= bw /\
  least_sq_fit leastsq fx params Harr
    (Some (Arr1 (map (fun l => l + bw / 2) bl))) [] = Ok f.
Proof.
  intros E.
  destruct (fit2histogram_inv_full _ _ _ _ _ _ _ _ _ E)
    as (rng & cs & edges & w & Hr & _ & Hh & _ & _ & Hbl & Hbw & Hfit).
  split; [|split].
  - exists rng, (hd [] cs), edges. auto.
  - rewrite Hbw. apply Rabs_pos.
  - exact Hfit.
Qed.

(** X18. The joint fit: for an [X] of [n >= 2] rows the solver gets the
    residuals of all counts, row after row, against the bin centres
    repeated [n] times; for a single row, of its counts against the bin
    centres. *)
Theorem fit2histogram_joint_fit (X : list (list R)) (fx : functor)
  (params : list R) (nbins : Z) (x_range : option (R * R)) (Harr : ndarray)
  (bl : list R) (bw : R) (f : fit) :
  fit2histogram X fx params nbins x_range = Ok (Harr, bl, bw, f) ->
  let centres := map (fun l => l + bw / 2) bl in
  exists rng cs,
    Forall2 (counts_of nbins rng) X cs /\
    ((2 <= length X)%nat ->
     leastsq (fun p =>
                g <- fx (Arr1 (concat (repeat centres (length X)))) p [] ;;
                ndarray_sub (Arr1 (concat cs)) g) params = Ok f) /\
    (length X = 1%nat ->
     leastsq (fun p => g <- fx (Arr1 centres) p [] ;;
                       ndarray_sub (Arr1 (hd [] cs)) g) params = Ok f).
Proof.
  intros E centres.
  destruct (fit2histogram_inv_full _ _ _ _ _ _ _ _ _ E)
    as (rng & cs & edges & w & _ & HF & _ & _ & HH & _ & _ & Hfit).
  exists rng, cs. split; [exact HF|].
  pose proof (Forall2_length HF) as Hlen.
  unfold least_sq_fit in Hfit. fold centres in Hfit. split.
  - intros Hn. destruct cs as [|c [|c' cs]]; simpl in Hlen; try lia.
    subst Harr. rewrite least_sq_fit_xy_many in Hfit by (simpl; lia).
    rewrite Hlen. exact Hfit.
  - intros Hn. destruct cs as [|c [|c' cs]]; simpl in Hlen; try lia.
    subst Harr. exact Hfit.
Qed.

Hypothesis histogram_equal_width :
  forall obs nbins rng counts edges,
    histogram obs nbins rng = Ok (counts, edges) ->
    (0 < nbins)%Z /\ fst rng <= snd rng /\
    edges = linspace (fst rng) (snd rng) (Z.to_nat nbins).

(** X13. For a histogram routine of equal-width bins, the returned
    [bin_left] has [nbins] entries, the [i]-th being
    [lo + i * (hi - lo) / nbins]. *)
Theorem fit2histogram_bin_left (X : list (list R)) (fx : functor)
  (params : list R) (nbins : Z) (x_range : option (R * R)) (Harr : ndarray)
  (bl : list R) (bw : R) (f : fit) :
  fit2histogram X fx params nbins x_range = Ok (Harr, bl, bw, f) ->
  exists lo hi,
    default_range X x_range = Ok (lo, hi) /\
    length bl = Z.to_nat nbins /\
    forall i : nat, (i < Z.to_nat nbins)%nat ->
      nth i bl 0 = lo + INR i * ((hi - lo) / IZR nbins).
Proof.
  intros E.
  destruct (fit2histogram_inv_full _ _ _ _ _ _ _ _ _ E)
    as ([lo hi] & cs & edges & w & Hr & _ & Hh & _ & _ & Hbl & _).
  destruct (histogram_equal_width _ _ _ _ _ Hh) as (Hn & _ & He).
  simpl in He. subst edges bl.
  exists lo, hi. split; [exact Hr|].
  rewrite removelast_linspace.
  assert (HN : INR (Z.to_nat nbins) = IZR nbins).
  { rewrite INR_IZR_INZ, Z2Nat.id by lia. reflexivity. }
  split.
  - now rewrite length_map, length_seq.
  - intros i Hi.
    set (g := fun i : nat => lo + INR i * ((hi - lo) / INR (Z.to_nat nbins))).
    rewrite (nth_indep _ 0 (g 0%nat)) by now rewrite length_map, length_seq.
    rewrite map_nth, seq_nth by exact Hi. unfold g. simpl Nat.add.
    now rewrite HN.
Qed.

End WithRoutines.

(** *** Stand-ins for the external routines and a run with them *)

Definition stand_in_solver (_ : list R -> result ndarray) (p : list R)
  : result fit := Ok (p, 1%Z).

Definition stand_in_histogram (_ : list R) (nbins : Z) (rng : R * R)
  : result (list R * list R) :=
  if (0 <? nbins)%Z then
    if Rle_dec (fst rng) (snd rng) then
      Ok (repeat 0 (Z.to_nat nbins),
          linspace (fst rng) (snd rng) (Z.to_nat nbins))
    else Raise ValueError
  else Raise ValueError.

Definition stand_in_fx (x : ndarray) (_ : list R) (_ : kwargs)
  : result ndarray := Ok x.

Lemma stand_in_run :
  exists Harr bl bw f,
    fit2histogram stand_in_solver stand_in_histogram [[0; 1]; [1; 1]]
      stand_in_fx [] 2 (Some (0, 1))
    = Ok (Harr, bl, bw, f).
Proof.
  destruct (fit2histogram_returns stand_in_solver stand_in_histogram
              equal_width_stand_in [[0; 1]; [1; 1]] stand_in_fx [] 2
              (Some (0, 1)) (0, 1)) as [[[[Harr bl] bw] f] E].
  - discriminate.
  - reflexivity.
  - intros row _. unfold stand_in_histogram. simpl.
    destruct (Rle_dec 0 1) as [_|N]; [eauto|exfalso; lra].
  - intros e p. eexists. reflexivity.
  - now exists Harr, bl, bw, f.
Qed.

Lemma fit2histogram_without_entries_witness :
  fit2histogram stand_in_solver stand_in_histogram [[]; []] stand_in_fx []
    2 None
  = Raise ValueError.
Proof.
  apply (proj1 (fit2histogram_without_entries stand_in_solver
                  stand_in_histogram [[]; []] stand_in_fx [] 2)).
  reflexivity.
Defined.

Lemma fit2histogram_counts_witness :
  exists Harr bl bw f,
    fit2histogram stand_in_solver stand_in_histogram [[0; 1]; [1; 1]]
      stand_in_fx [] 2 (Some (0, 1))
    = Ok (Harr, bl, bw, f) /\
    exists rng cs,
      default_range [[0; 1]; [1; 1]] (Some (0, 1)) = Ok rng /\
      [[0; 1]; [1; 1]] <> [] /\
      Forall2 (counts_of stand_in_histogram 2 rng) [[0; 1]; [1; 1]] cs /\
      Harr = match cs with
             | [c] => Arr1 c
             | _ => Arr2 (length (hd [] cs)) cs
             end.
Proof.
  destruct stand_in_run as (Harr & bl & bw & f & E).
  exists Harr, bl, bw, f. split; [exact E|].
  exact (fit2histogram_counts stand_in_solver stand_in_histogram _ _ _ _ _
           Harr bl bw f E).
Defined.

Lemma fit2histogram_fit_over_centres_witness :
  exists Harr bl bw f,
    fit2histogram stand_in_solver stand_in_histogram [[0; 1]; [1; 1]]
      stand_in_fx [] 2 (Some (0, 1))
    = Ok (Harr, bl, bw, f) /\
    0 <= bw /\
    least_sq_fit stand_in_solver stand_in_fx [] Harr
      (Some (Arr1 (map (fun l => l + bw / 2) bl))) [] = Ok f.
Proof.
  destruct stand_in_run as (Harr & bl & bw & f & E).
  exists Harr, bl, bw, f. split; [exact E|].
  exact (proj2 (fit2histogram_fit_over_centres stand_in_solver
                  stand_in_histogram _ _ _ _ _ Harr bl bw f E)).
Defined.

Lemma fit2histogram_joint_fit_witness :
  exists Harr bl bw f,
    fit2histogram stand_in_solver stand_in_histogram [[0; 1]; [1; 1]]
      stand_in_fx [] 2 (Some (0, 1))
    = Ok (Harr, bl, bw, f) /\
    exists rng cs,
      Forall2 (counts_of stand_in_histogram 2 rng) [[0; 1]; [1; 1]] cs /\
      stand_in_solver
        (fun p =>
           g <- stand_in_fx
                  (Arr1 (concat (repeat (map (fun l => l + bw / 2) bl) 2)))
                  p [] ;;
           ndarray_sub (Arr1 (concat cs)) g) [] = Ok f.
Proof.
  destruct stand_in_run as (Harr & bl & bw & f & E).
  exists Harr, bl, bw, f. split; [exact E|].
  destruct (fit2histogram_joint_fit stand_in_solver stand_in_histogram
              _ _ _ _ _ Harr bl bw f E) as (rng & cs & HF & H2 & _).
  exists rng, cs. split; [exact HF|]. apply H2. simpl. lia.
Defined.

Lemma fit2histogram_bin_left_witness :
  exists Harr bl bw f,
    fit2histogram stand_in_solver stand_in_histogram [[0; 1]; [1; 1]]
      stand_in_fx [] 2 (Some (0, 1))
    = Ok (Harr, bl, bw, f) /\
    exists lo hi,
      default_range [[0; 1]; [1; 1]] (Some (0, 1)) = Ok (lo, hi) /\
      length bl = Z.to_nat 2 /\
      forall i : nat, (i < Z.to_nat 2)%nat ->
        nth i bl 0 = lo + INR i * ((hi - lo) / IZR 2).
Proof.
  destruct stand_in_run as (Harr & bl & bw & f & E).
  exists Harr, bl, bw, f. split; [exact E|].
  exact (fit2histogram_bin_left stand_in_solver stand_in_histogram
           equal_width_stand_in _ _ _ _ _ Harr bl bw f E).
Defined.

End HistExtra.

(** ** Further properties of the rotation generator *)

Module RotationExtra.
Import Py Rotation RotationProps.
Import mathcomp.boot.boot mathcomp.order.order mathcomp.algebra.algebra.
Import GRing.Theory Num.Theory.
Local Open Scope ring_scope.

Set Implicit Arguments.
Unset Strict Implicit.
Unset Printing Implicit Defensive.

Section Arrays.

Variable F : realFieldType.
Implicit Types a : ndarray2 F.

(** [a.T @ a] is the identity. *)
Definition cols_orthonormal a : Prop :=
  forall j l : 'I_(shape1 a),
    \sum_(i < shape0 a) item a i j * item a i l = (j == l)%:R.

(** A square array with orthonormal rows has orthonormal columns. *)
Lemma square_cols_orthonormal a (n : nat) :
  shape0 a = n -> shape1 a = n -> rows_orthonormal a ->
  forall j l : 'I_n, \sum_(i < n) item a i j * item a i l = (j == l)%:R.
Proof.
  move=> H0 H1 Ho j l.
  have /mulmx1C/matrixP/(_ j l) := orthogonal_square H0 H1 Ho.
  rewrite !mxE => <-.
  by apply: eq_bigr => i _; rewrite !mxE.
Qed.

End Arrays.

Section WithSvd.

Variable F : realFieldType.
Variable svd_vh : ndarray2 F -> ndarray2 F.
Variable random_normal : nat -> nat -> ndarray2 F.

Notation get_random_rotation := (get_random_rotation svd_vh random_normal).

Hypothesis svd_shape :
  forall a, shape0 (svd_vh a) = shape1 a /\ shape1 (svd_vh a) = shape1 a.

(** X14. For [ns >= 0] and [nt >= 0], and whatever the data,
    [get_random_rotation] returns: the determinant is taken of a square
    array only, and the first column is negated only where there is
    one (an empty candidate has determinant 1). *)
Theorem get_random_rotation_returns (ns : nat) (nt : option nat)
  (data : option (ndarray2 F)) :
  exists R, get_random_rotation (Posz ns) (omap Posz nt) data = Ok R.
Proof.
  have -> : get_random_rotation (Posz ns) (omap Posz nt) data
            = get_random_rotation (Posz ns) (Some (Posz (odflt ns nt))) data.
    by case: (nt).
  case: data => [a|]; last rewrite get_random_rotation_default_data.
  - by case: (get_random_rotation_shape_of random_normal svd_shape
                ns (odflt ns nt) a) => R [E _]; exists R.
  - by case: (get_random_rotation_shape_of random_normal svd_shape
                ns (odflt ns nt)
                (random_normal (maxn ns (odflt ns nt) * 10)
                   (maxn ns (odflt ns nt)))) => R [E _]; exists R.
Qed.

(** X15. Without data, negative dimensions raise ValueError: the random
    draw refuses a negative size. *)
Theorem get_random_rotation_negative (ns : int) (nt : option int) :
  ns < 0 -> odflt ns nt < 0 ->
  get_random_rotation ns nt None = Raise ValueError.
Proof.
  move=> Hs Ht.
  have -> : get_random_rotation ns nt None
            = get_random_rotation ns (Some (odflt ns nt)) None.
    by case: (nt).
  rewrite /Rotation.get_random_rotation.
  have : Num.max ns (odflt ns nt) < 0 by rewrite /Order.max; case: ifP.
  by case: (Num.max ns (odflt ns nt)).
Qed.

Hypothesis random_shape :
  forall r c,
    shape0 (random_normal r c) = r /\ shape1 (random_normal r c) = c.

Hypothesis svd_orthonormal : forall a, rows_orthonormal (svd_vh a).

(** The array [vh] of the square data of [d] columns, and its slice. *)
Lemma candidate_of_full (ns nt : nat) (data : option (ndarray2 F)) :
  ns != nt ->
  (forall a, data = Some a -> (maxn ns nt <= shape1 a)%N) ->
  exists V,
    [/\ shape0 V = maxn ns nt, shape1 V = maxn ns nt, rows_orthonormal V &
        get_random_rotation (Posz ns) (Some (Posz nt)) data
        = Ok (Nd2 ns nt (item V))].
Proof.
  move=> Hne Hcols.
  pose a := odflt (random_normal (maxn ns nt * 10) (maxn ns nt)) data.
  have Ha : (maxn ns nt <= shape1 a)%N.
    rewrite /a; case: (data) Hcols => [b|_] /=; first by apply.
    by case: (random_shape (maxn ns nt * 10) (maxn ns nt)) => _ ->.
  have -> : get_random_rotation (Posz ns) (Some (Posz nt)) data
            = get_random_rotation (Posz ns) (Some (Posz nt)) (Some a).
    by rewrite /a; case: (data) => [b|] //;
       rewrite get_random_rotation_default_data.
  rewrite /Rotation.get_random_rotation max_nat /= eqz_nat (negPf Hne).
  set b := cols_upto a _.
  have Hb : shape1 b = maxn ns nt by rewrite /b /=; apply/minn_idPl.
  exists (svd_vh b).
  case: (svd_shape b) => H0 H1; rewrite Hb in H0 H1.
  split=> //; rewrite /cols_upto /rows_upto /= H0 H1.
  by rewrite (minn_idPl (leq_maxl _ _)) (minn_idPl (leq_maxr _ _)).
Qed.

(** X16. With fewer source than target dimensions ([ns < nt]), and data
    left out or of at least [nt] columns, the [(ns, nt)] matrix returned
    has orthonormal rows: [R @ R.T] is the identity. *)
Theorem get_random_rotation_wide (ns nt : nat) (data : option (ndarray2 F)) :
  (ns < nt)%N ->
  (forall a, data = Some a -> (nt <= shape1 a)%N) ->
  exists R,
    [/\ get_random_rotation (Posz ns) (Some (Posz nt)) data = Ok R,
        shape0 R = ns, shape1 R = nt & rows_orthonormal R].
Proof.
  move=> Hlt Hcols.
  have Hmax : maxn ns nt = nt by apply/maxn_idPr/ltnW.
  case: (@candidate_of_full ns nt data).
  - by rewrite neq_ltn Hlt.
  - by rewrite Hmax.
  move=> [r c it] [/= H0 H1 Ho E].
  rewrite Hmax in H0 H1; subst r c.
  exists (Nd2 ns nt it); split=> // i k /=.
  have := Ho (widen_ord (ltnW Hlt) i) (widen_ord (ltnW Hlt) k).
  by rewrite -val_eqE.
Qed.

(** X17. With more source than target dimensions ([ns > nt]), the
    dimension-reducing case, and data left out or of at least [ns]
    columns, the [(ns, nt)] matrix returned has orthonormal columns:
    [R.T @ R] is the identity. *)
Theorem get_random_rotation_tall (ns nt : nat) (data : option (ndarray2 F)) :
  (nt < ns)%N ->
  (forall a, data = Some a -> (ns <= shape1 a)%N) ->
  exists R,
    [/\ get_random_rotation (Posz ns) (Some (Posz nt)) data = Ok R,
        shape0 R = ns, shape1 R = nt & cols_orthonormal R].
Proof.
  move=> Hlt Hcols.
  have Hmax : maxn ns nt = ns by apply/maxn_idPl/ltnW.
  case: (@candidate_of_full ns nt data).
  - by rewrite neq_ltn Hlt orbT.
  - by rewrite Hmax.
  move=> V [H0 H1 Ho E].
  rewrite Hmax in H0 H1.
  exists (Nd2 ns nt (item V)); split=> // j l /=.
  have := square_cols_orthonormal H0 H1 Ho
            (widen_ord (ltnW Hlt) j) (widen_ord (ltnW Hlt) l).
  by rewrite -val_eqE.
Qed.

End WithSvd.

Lemma get_random_rotation_returns_witness :
  let svd := fun a : ndarray2 rat =>
               Nd2 (shape1 a) (shape1 a) (fun i j => (i == j)%:R : rat) in
  let rnd := fun r c : nat => Nd2 r c (fun _ _ => 0 : rat) in
  let data := Nd2 4 1 (fun i j => (i + j)%:R : rat) in
  exists R, get_random_rotation svd rnd (Posz 0) None (Some data) = Ok R.
Proof.
  move=> svd rnd data.
  exact: (@get_random_rotation_returns rat svd rnd identity_shape 0 None
            (Some data)).
Defined.

Lemma get_random_rotation_negative_witness :
  let svd := fun a : ndarray2 rat =>
               Nd2 (shape1 a) (shape1 a) (fun i j => (i == j)%:R : rat) in
  let rnd := fun r c : nat => Nd2 r c (fun _ _ => 0 : rat) in
  get_random_rotation svd rnd (Negz 0) (Some (Negz 2)) None
  = Raise ValueError.
Proof.
  move=> svd rnd.
  exact: (@get_random_rotation_negative rat svd rnd (Negz 0)
            (Some (Negz 2)) isT isT).
Defined.

Lemma get_random_rotation_wide_witness :
  let svd := fun a : ndarray2 rat =>
               Nd2 (shape1 a) (shape1 a) (fun i j => (i == j)%:R : rat) in
  let rnd := fun r c : nat => Nd2 r c (fun _ _ => 0 : rat) in
  exists R,
    [/\ get_random_rotation svd rnd (Posz 2) (Some (Posz 3)) None = Ok R,
        shape0 R = 2%N, shape1 R = 3%N & rows_orthonormal R].
Proof.
  move=> svd rnd.
  by apply: (@get_random_rotation_wide rat svd rnd identity_shape zeros_shape
               identity_rows_orthonormal 2 3 None).
Defined.

Lemma get_random_rotation_tall_witness :
  let svd := fun a : ndarray2 rat =>
               Nd2 (shape1 a) (shape1 a) (fun i j => (i == j)%:R : rat) in
  let rnd := fun r c : nat => Nd2 r c (fun _ _ => 0 : rat) in
  let data := Nd2 40 6 (fun i j => (i + j)%:R : rat) in
  exists R,
    [/\ get_random_rotation svd rnd (Posz 5) (Some (Posz 2)) (Some data)
        = Ok R,
        shape0 R = 5%N, shape1 R = 2%N & cols_orthonormal R].
Proof.
  move=> svd rnd data.
  apply: (@get_random_rotation_tall rat svd rnd identity_shape zeros_shape
            identity_rows_orthonormal 5 2 (Some data)) => //.
  by move=> a [<-].
Defined.

End RotationExtra.
